(** * IntrusiveList: an intrusive, circular, sentinel-terminated doubly linked list

    A shallow embedding of [include/ntrusive/node.hpp] (the hook
    [IntrusiveListNode], the container [IntrusiveList<T>] and the iterator
    [ListIterator<T>]) together with the traversal used by
    [tests/unit.cc] ([check_integrity]).

    Memory is modelled field by field: every object lives at an address and
    each data member is a finite map from addresses to the member's value.
    A pointer is [option nat], [None] being [nullptr].  Reading or writing a
    member of an object that is not there makes the computation stuck
    ([None]); so does a failed [assert] in a build without [NDEBUG]. *)

From stdpp Require Import gmap list strings.

Abbreviation addr := nat (only parsing).
Abbreviation ptr := (option nat) (only parsing).
Abbreviation nullptr := (@None nat) (only parsing).

(** ** Memory *)

Record world := World {
  prev_ : gmap nat (option nat);      (* NodeBase::prev_ *)
  next_ : gmap nat (option nat);      (* NodeBase::next_ *)
  is_linked_ : gmap nat bool;         (* IntrusiveListNode::is_linked_ *)
  stderr : list string                (* what fprintf(stderr, ...) wrote *)
}.

(** ** The state-and-failure monad of the embedding *)

Definition M (A : Type) : Type := world → option (A * world).

Definition ret {A} (a : A) : M A := λ w, Some (a, w).

Definition bind {A B} (m : M A) (k : A → M B) : M B :=
  λ w, match m w with
       | Some (a, w') => k a w'
       | None => None
       end.

Definition fail {A} : M A := λ _, None.

Declare Scope m_scope.
Delimit Scope m_scope with M.
Notation "'let!' x ':=' m 'in' k" := (bind m (λ x, k))
  (at level 10, x name, m at level 100, k at level 200) : m_scope.
Notation "m ';;;' k" := (bind m (λ _, k))
  (at level 100, k at level 200, right associativity) : m_scope.
Local Open Scope m_scope.

(** ** NodeBase

    [base_node.hpp] is not among the sources; its members are used by every
    function below. *)

(** Modelled from the spec: [NodeBase::next_node], the getter of the forward
    reference of the link record ("two ownership-free back/forward
    references"); [base_node.hpp] is missing. *)
Definition next_node (self : ptr) : M ptr :=
  λ w, match self with
       | Some a => match next_ w !! a with
                   | Some v => Some (v, w)
                   | None => None
                   end
       | None => None
       end.

(** Modelled from the spec: [NodeBase::prev_node], the getter of the backward
    reference; [base_node.hpp] is missing. *)
Definition prev_node (self : ptr) : M ptr :=
  λ w, match self with
       | Some a => match prev_ w !! a with
                   | Some v => Some (v, w)
                   | None => None
                   end
       | None => None
       end.

(** Modelled from the spec: [NodeBase::set_next], the setter of the forward
    reference, as [init_sentinel] uses it; [base_node.hpp] is missing. *)
Definition set_next (self q : ptr) : M unit :=
  λ w, match self with
       | Some a => match next_ w !! a with
                   | Some _ =>
                       Some (tt, World (prev_ w) (<[a := q]> (next_ w))
                                       (is_linked_ w) (stderr w))
                   | None => None
                   end
       | None => None
       end.

(** Modelled from the spec: [NodeBase::set_prev], the setter of the backward
    reference; [base_node.hpp] is missing. *)
Definition set_prev (self q : ptr) : M unit :=
  λ w, match self with
       | Some a => match prev_ w !! a with
                   | Some _ =>
                       Some (tt, World (<[a := q]> (prev_ w)) (next_ w)
                                       (is_linked_ w) (stderr w))
                   | None => None
                   end
       | None => None
       end.

(** Modelled from the spec: [NodeBase::link_between_base], missing with
    [base_node.hpp].  Spec 4.1: "link_between(a, b): splice self between two
    existing linked records a and b ... Sets self.prev=a, self.next=b,
    a.next=self, b.prev=self." *)
Definition link_between_base (self prev next : ptr) : M unit :=
  set_prev self prev ;;;
  set_next self next ;;;
  set_next prev self ;;;
  set_prev next self.

(** Modelled from the spec: [NodeBase::unlink_base], missing with
    [base_node.hpp].  Spec 4.1: "unlink_self(): given current prev/next, set
    prev.next = next; next.prev = prev." *)
Definition unlink_base (self : ptr) : M unit :=
  let! p := prev_node self in
  let! n := next_node self in
  set_next p n ;;;
  set_prev n p.

(** Modelled from the spec: [NodeBase::transfer_range], missing with
    [base_node.hpp].  Spec 4.1: "detach the contiguous run [first, last) from
    its current ring and reinsert it, in the same relative order, immediately
    before destination_position ... detach the run's neighbors to close the
    gap, then re-target the run's head/tail prev/next to the new neighbors
    ... the run's internal links are untouched."  Reinserting the run before
    the destination also makes the two new neighbours refer to the run's head
    and tail; the model writes these two references together with the head's
    and the tail's own, as the splice tests of [tests/unit.cc] need it: they
    traverse both containers in both directions afterwards. *)
Definition transfer_range (position first last : ptr) : M unit :=
  let! tail := prev_node last in
  let! before := prev_node first in
  let! pprev := prev_node position in
  set_next before last ;;;
  set_prev last before ;;;
  set_next pprev first ;;;
  set_prev first pprev ;;;
  set_next tail position ;;;
  set_prev position tail.

(** ** IntrusiveListNode, IntrusiveList and ListIterator *)

(** The destructor's format string; it ends in a newline. *)
Definition warning : string :=
  String.append
    "[ntrusive] : WARNING : destroying node still in list.. auto-unlinking.."
    (String (Ascii.ascii_of_nat 10) EmptyString).

(** [fprintf(stderr, ...)] *)
Definition fprintf_stderr (s : string) : M unit :=
  λ w, Some (tt, World (prev_ w) (next_ w) (is_linked_ w) (stderr w ++ [s])).

(** [IntrusiveListNode::is_linked]: [return is_linked_;] *)
Definition is_linked (self : ptr) : M bool :=
  λ w, match self with
       | Some a => match is_linked_ w !! a with
                   | Some b => Some (b, w)
                   | None => None
                   end
       | None => None
       end.

(** The assignment [is_linked_ = b]. *)
Definition store_is_linked (self : ptr) (b : bool) : M unit :=
  λ w, match self with
       | Some a => match is_linked_ w !! a with
                   | Some _ =>
                       Some (tt, World (prev_ w) (next_ w)
                                       (<[a := b]> (is_linked_ w)) (stderr w))
                   | None => None
                   end
       | None => None
       end.

(** [IntrusiveListNode::set_linked] *)
Definition set_linked (self : ptr) : M unit := store_is_linked self true.

(** Modelled from the spec: the construction of a [NodeBase], whose
    constructor is in the missing [base_node.hpp].  The link record comes to
    life at its address with both references [nullptr], as the member
    initialisers of the prototype hook in [src/node.hpp] have it. *)
Definition construct_base (a : addr) : M unit :=
  λ w, Some (tt, World (<[a := nullptr]> (prev_ w)) (<[a := nullptr]> (next_ w))
                       (is_linked_ w) (stderr w)).

(** [IntrusiveListNode::IntrusiveListNode]: the [NodeBase] subobject, then
    the member initialiser [is_linked_{false}]. *)
Definition construct_node (a : addr) : M unit :=
  construct_base a ;;;
  (λ w, Some (tt, World (prev_ w) (next_ w)
                        (<[a := false]> (is_linked_ w)) (stderr w))).

(** The storage of a hook goes away once its destructor has run. *)
Definition release_node (a : addr) : M unit :=
  λ w, Some (tt, World (delete a (prev_ w)) (delete a (next_ w))
                       (delete a (is_linked_ w)) (stderr w)).

Section Build.

(** [NDEBUG] is the build's choice: when it is defined, [assert] expands to
    nothing and the destructor's [fprintf] is compiled out. *)
Variable NDEBUG : bool.

(** [assert(c)] *)
Definition assert_ (c : M bool) : M unit :=
  if NDEBUG then ret tt
  else let! b := c in if b then ret tt else fail.

(** [IntrusiveListNode::unlink] *)
Definition unlink (self : ptr) : M unit :=
  assert_ (is_linked self) ;;;
  unlink_base self ;;;
  store_is_linked self false.

(** [IntrusiveListNode::link_between] *)
Definition link_between (self prev next : ptr) : M unit :=
  link_between_base self prev next ;;;
  set_linked self.

(** [IntrusiveListNode::~IntrusiveListNode] *)
Definition destructor (self : ptr) : M unit :=
  let! linked := is_linked self in
  if linked then
    (if NDEBUG then ret tt else fprintf_stderr warning) ;;;
    unlink self
  else ret tt.

(** An element going out of scope: the destructor runs, then the storage is
    gone (the blocks of the [AutoUnlink*] tests). *)
Definition destroy (a : addr) : M unit :=
  destructor (Some a) ;;;
  release_node a.

(** [ListIterator::operator++] and [operator--] on the iterator's
    [current_]; an iterator is its [current_] pointer. *)
Definition iter_next (current : ptr) : M ptr := next_node current.
Definition iter_prev (current : ptr) : M ptr := prev_node current.

(** [IntrusiveList::init_sentinel]; [this] is the address of [sentinel_], the
    container's only data member. *)
Definition init_sentinel (this : ptr) : M unit :=
  set_next this this ;;;
  set_prev this this.

(** [IntrusiveList::IntrusiveList]: the member [sentinel_], a plain
    [NodeBase], then [init_sentinel()]. *)
Definition construct_list (s : addr) : M unit :=
  construct_base s ;;;
  init_sentinel (Some s).

(** [IntrusiveList::empty] *)
Definition empty (this : ptr) : M bool :=
  let! n := next_node this in
  ret (bool_decide (n = this)).

(** [IntrusiveList::begin] and [end] *)
Definition begin_ (this : ptr) : M ptr := next_node this.
Definition end_ (this : ptr) : M ptr := ret this.

(** [IntrusiveList::insert_after] *)
Definition insert_after (after value : ptr) : M unit :=
  assert_ (let! b := is_linked value in ret (negb b)) ;;;
  let! n := next_node after in
  link_between value after n.

(** [IntrusiveList::insert_before] *)
Definition insert_before (before value : ptr) : M unit :=
  assert_ (let! b := is_linked value in ret (negb b)) ;;;
  let! p := prev_node before in
  link_between value p before.

(** [IntrusiveList::push_back] *)
Definition push_back (this element : ptr) : M unit :=
  insert_before this element.

(** [IntrusiveList::push_front] *)
Definition push_front (this element : ptr) : M unit :=
  insert_after this element.

(** [IntrusiveList::insert] *)
Definition insert (this pos element : ptr) : M ptr :=
  insert_before pos element ;;;
  ret element.

(** [IntrusiveList::pop_front] *)
Definition pop_front (this : ptr) : M unit :=
  assert_ (let! e := empty this in ret (negb e)) ;;;
  let! n := next_node this in
  unlink n.

(** [IntrusiveList::pop_back] *)
Definition pop_back (this : ptr) : M unit :=
  assert_ (let! e := empty this in ret (negb e)) ;;;
  let! p := prev_node this in
  unlink p.

(** [IntrusiveList::erase] *)
Definition erase (this pos : ptr) : M ptr :=
  assert_ (let! e := end_ this in ret (bool_decide (pos ≠ e))) ;;;
  let! next := next_node pos in
  unlink pos ;;;
  ret next.

(** The loop of [IntrusiveList::erase_range]; [fuel] bounds the number of
    times the loop condition is evaluated, and running out of it is a
    failure. *)
Fixpoint erase_range_loop (fuel : nat) (this it stop : ptr) : M unit :=
  match fuel with
  | 0 => fail
  | S fuel' =>
      if bool_decide (it ≠ stop) then
        let! it' := erase this it in
        erase_range_loop fuel' this it' stop
      else ret tt
  end.

(** [IntrusiveList::erase_range] *)
Definition erase_range (fuel : nat) (this first last : ptr) : M ptr :=
  erase_range_loop fuel this first last ;;;
  ret last.

(** [IntrusiveList::clear] *)
Fixpoint clear (fuel : nat) (this : ptr) : M unit :=
  match fuel with
  | 0 => fail
  | S fuel' =>
      let! e := empty this in
      if negb e then pop_front this ;;; clear fuel' this
      else ret tt
  end.

(** [IntrusiveList::splice_range] *)
Definition splice_range (this position other first last : ptr) : M unit :=
  transfer_range position first last.

(** [IntrusiveList::splice] *)
Definition splice (this position other : ptr) : M unit :=
  let! e := empty other in
  if e then ret tt
  else if bool_decide (this = other) then ret tt
  else
    let! b := begin_ other in
    let! e := end_ other in
    splice_range this position other b e.

(** [IntrusiveList::splice_cell] *)
Definition splice_cell (this position other element : ptr) : M unit :=
  let! e := end_ other in
  if bool_decide (element = e) then ret tt
  else
    let! next := iter_next element in
    splice_range this position other element next.

(** The search for the split point in [IntrusiveList::extract_front].  The
    loop runs while [split_point != end() && count < max_cnt]; [budget] is
    [max_cnt - count], so the recursion is structural and an exhausted
    budget is exactly a false loop condition.  [count] stays at most
    [max_cnt], so the [size_type] counter cannot wrap. *)
Fixpoint find_split (budget : nat) (this split_point : ptr) (count max_cnt : nat)
  : M (ptr * nat) :=
  match budget with
  | 0 => ret (split_point, count)
  | S budget' =>
      let! e := end_ this in
      if bool_decide (split_point ≠ e) && bool_decide (count < max_cnt) then
        let! split_point' := iter_next split_point in
        find_split budget' this split_point' (S count) max_cnt
      else ret (split_point, count)
  end.

(** [IntrusiveList::extract_front] *)
Definition extract_front (this out : ptr) (max_cnt : nat) : M nat :=
  let! b := begin_ this in
  let! sc := find_split max_cnt this b 0 max_cnt in
  (if bool_decide (0 < sc.2) then
     let! oe := end_ out in
     let! b := begin_ this in
     splice_range out oe this b sc.1
   else ret tt) ;;;
  ret sc.2.

(** [IntrusiveList::remove] *)
Definition remove (element : ptr) : M unit :=
  let! b := is_linked element in
  if b then unlink element else ret tt.

(** [IntrusiveList::front] and [back], as the address of the element *)
Definition front (this : ptr) : M ptr :=
  assert_ (let! e := empty this in ret (negb e)) ;;;
  begin_ this.

Definition back (this : ptr) : M ptr :=
  assert_ (let! e := empty this in ret (negb e)) ;;;
  let! e := end_ this in
  iter_prev e.

(** [IntrusiveList::try_pop_front] *)
Definition try_pop_front (this : ptr) : M ptr :=
  let! e := empty this in
  if e then ret nullptr
  else
    let! result := front this in
    pop_front this ;;;
    ret result.

(** [IntrusiveList::try_pop_back] *)
Definition try_pop_back (this : ptr) : M ptr :=
  let! e := empty this in
  if e then ret nullptr
  else
    let! res := back this in
    pop_back this ;;;
    ret res.

(** The loop of [IntrusiveList::size] *)
Fixpoint size_loop (fuel : nat) (this it : ptr) (cnt : nat) : M nat :=
  match fuel with
  | 0 => fail
  | S fuel' =>
      if bool_decide (it ≠ this) then
        let! it' := iter_next it in
        size_loop fuel' this it' (S cnt)
      else ret cnt
  end.

Definition size (fuel : nat) (this : ptr) : M nat :=
  let! b := begin_ this in
  size_loop fuel this b 0.

End Build.

(** ** The traversals of [check_integrity] ([tests/unit.cc])

    Elements are identified by their addresses.  [fuel] bounds the number of
    loop tests. *)

(** [for (auto& item : list) forward.push_back(...)] *)
Fixpoint forward_loop (fuel : nat) (this it : ptr) (acc : list addr)
  : M (list addr) :=
  match fuel with
  | 0 => fail
  | S fuel' =>
      if bool_decide (it ≠ this) then
        match it with
        | Some a =>
            let! it' := iter_next it in
            forward_loop fuel' this it' (acc ++ [a])
        | None => fail
        end
      else ret acc
  end.

Definition forward (fuel : nat) (this : ptr) : M (list addr) :=
  let! b := begin_ this in
  forward_loop fuel this b [].

(** [auto it = list.end(); while (it != list.begin()) { --it; ... }] *)
Fixpoint backward_loop (fuel : nat) (this it : ptr) (acc : list addr)
  : M (list addr) :=
  match fuel with
  | 0 => fail
  | S fuel' =>
      let! b := begin_ this in
      if bool_decide (it ≠ b) then
        let! it' := iter_prev it in
        match it' with
        | Some a => backward_loop fuel' this it' (acc ++ [a])
        | None => fail
        end
      else ret acc
  end.

Definition backward (fuel : nat) (this : ptr) : M (list addr) :=
  let! e := end_ this in
  backward_loop fuel this e [].

(** [IntrusiveList::~IntrusiveList]: [clear()], after which the storage of
    the sentinel goes away. *)
Definition destroy_list (NDEBUG : bool) (fuel : nat) (s : addr) : M unit :=
  clear NDEBUG fuel (Some s) ;;;
  release_node s.

(** The loop of the test [DrainViaTryPop] ([tests/unit.cc]):
    [while (auto* ptr = list.try_pop_front()) drained.push_back(...)]. *)
Fixpoint drain (NDEBUG : bool) (fuel : nat) (this : ptr) (acc : list addr)
  : M (list addr) :=
  match fuel with
  | 0 => fail
  | S fuel' =>
      let! p := try_pop_front NDEBUG this in
      match p with
      | Some a => drain NDEBUG fuel' this (acc ++ [a])
      | None => ret acc
      end
  end.

(** ** The ring a container observes *)

(** [a] and [b] are neighbours: [a.next == b] and [b.prev == a]. *)
Definition link (w : world) (a b : addr) : Prop :=
  next_ w !! a = Some (Some b) ∧ prev_ w !! b = Some (Some a).

(** [a], then the nodes of [l], is a run of neighbours. *)
Fixpoint path (w : world) (a : addr) (l : list addr) : Prop :=
  match l with
  | [] => True
  | b :: l' => link w a b ∧ path w b l'
  end.

(** The last node of the non-empty sequence [a :: l]. *)
Definition lst (a : addr) (l : list addr) : addr := List.last l a.
Arguments lst : simpl never.

(** [a :: l] is a cycle: a run whose last node is linked back to [a]. *)
Definition cyc (w : world) (a : addr) (l : list addr) : Prop :=
  path w a l ∧ link w (lst a l) a.

(** The container whose sentinel is at [s] holds exactly the elements [l], in
    this order: the sentinel and the elements form a cycle of distinct nodes,
    the sentinel is a plain [NodeBase] (it has no [is_linked_]) and every
    element is a hook whose flag is set. *)
Definition ring (w : world) (s : addr) (l : list addr) : Prop :=
  cyc w s l ∧ NoDup (s :: l) ∧ is_linked_ w !! s = None ∧
  Forall (λ x, is_linked_ w !! x = Some true) l.

(** [x] is a live hook whose flag is [b]. *)
Definition hook (w : world) (x : addr) (b : bool) : Prop :=
  is_linked_ w !! x = Some b ∧ is_Some (prev_ w !! x) ∧ is_Some (next_ w !! x).

(** The iterator to the head of [lb] in the container at [s]; [end()] when
    [lb] is empty. *)
Definition iter_at (s : addr) (lb : list addr) : ptr := Some (hd s lb).

(** Prev/next consistency of one node. *)
Definition consistent (w : world) (a : addr) : Prop :=
  ∃ p n, prev_ w !! a = Some (Some p) ∧ next_ w !! p = Some (Some a) ∧
         next_ w !! a = Some (Some n) ∧ prev_ w !! n = Some (Some a).

(** The references of [y] are the same in [w] and [w']. *)
Definition same_links (w w' : world) (y : addr) : Prop :=
  prev_ w' !! y = prev_ w !! y ∧ next_ w' !! y = next_ w !! y.

(** ** Concrete memories

    [demo] holds the container at address [0] with the elements [1; 2; 3],
    the container at address [10] with the elements [11; 12], and the
    unlinked element [4]. *)

Definition w0 : world := World ∅ ∅ ∅ [].

Definition exec {A} (m : M A) (w : world) : world :=
  match m w with
  | Some (_, w') => w'
  | None => w
  end.

Definition setup (NDEBUG : bool) : M unit :=
  construct_list 0 ;;; construct_list 10 ;;;
  construct_node 1 ;;; construct_node 2 ;;; construct_node 3 ;;;
  construct_node 4 ;;; construct_node 11 ;;; construct_node 12 ;;;
  push_back NDEBUG (Some 0) (Some 1) ;;;
  push_back NDEBUG (Some 0) (Some 2) ;;;
  push_back NDEBUG (Some 0) (Some 3) ;;;
  push_back NDEBUG (Some 10) (Some 11) ;;;
  push_back NDEBUG (Some 10) (Some 12).

Definition demo : world := exec (setup false) w0.

(** The container at [0] alone, empty, with the unlinked element [1]. *)
Definition demo_empty : world :=
  exec (construct_list 0 ;;; construct_node 1) w0.

#[global] Instance link_dec w a b : Decision (link w a b).
Proof. unfold link. apply _. Defined.

#[global] Instance path_dec w a l : Decision (path w a l).
Proof. revert a. induction l; simpl; intros; apply _. Defined.

#[global] Instance cyc_dec w a l : Decision (cyc w a l).
Proof. unfold cyc. apply _. Defined.

#[global] Instance ring_dec w s l : Decision (ring w s l).
Proof. unfold ring. apply _. Defined.

#[global] Instance hook_dec w x b : Decision (hook w x b).
Proof. unfold hook. apply _. Defined.

(** ** Sequences of container operations

    The calls a client makes on the containers whose sentinels are listed in
    [lists]; iterators are passed as their [current_] pointers. *)

Inductive op : Type :=
  | OpPushBack (s x : addr)
  | OpPushFront (s x : addr)
  | OpInsert (s : addr) (pos : ptr) (x : addr)
  | OpErase (s : addr) (pos : ptr)
  | OpPopFront (s : addr)
  | OpPopBack (s : addr)
  | OpSplice (s : addr) (pos : ptr) (other : addr).

Definition run_op (NDEBUG : bool) (o : op) : M unit :=
  match o with
  | OpPushBack s x => push_back NDEBUG (Some s) (Some x)
  | OpPushFront s x => push_front NDEBUG (Some s) (Some x)
  | OpInsert s pos x => insert NDEBUG (Some s) pos (Some x) ;;; ret tt
  | OpErase s pos => erase NDEBUG (Some s) pos ;;; ret tt
  | OpPopFront s => pop_front NDEBUG (Some s)
  | OpPopBack s => pop_back NDEBUG (Some s)
  | OpSplice s pos other => splice (Some s) pos (Some other)
  end.

(** [pos] is [end()] of the container at [s] or points at one of its
    elements. *)
Definition valid_iterator (w : world) (s : addr) (pos : ptr) : Prop :=
  ∃ la lb, ring w s (la ++ lb) ∧ pos = iter_at s lb.

(** The preconditions the operations state: the element to link is an
    unlinked hook, iterators belong to the container, [erase] is not given
    [end()] and [pop_*] is not called on an empty container. *)
Definition valid_call (lists : list addr) (w : world) (o : op) : Prop :=
  match o with
  | OpPushBack s x | OpPushFront s x => s ∈ lists ∧ hook w x false
  | OpInsert s pos x => s ∈ lists ∧ valid_iterator w s pos ∧ hook w x false
  | OpErase s pos => s ∈ lists ∧ valid_iterator w s pos ∧ pos ≠ Some s
  | OpPopFront s | OpPopBack s => s ∈ lists ∧ empty (Some s) w = Some (false, w)
  | OpSplice s pos other => s ∈ lists ∧ other ∈ lists ∧ valid_iterator w s pos
  end.

(** The memories reached from freshly constructed (empty) containers by
    finitely many valid calls. *)
Inductive reachable (NDEBUG : bool) (lists : list addr) : world → Prop :=
  | reach_init w :
      (∀ s, s ∈ lists → ring w s []) → reachable NDEBUG lists w
  | reach_step w o w' :
      reachable NDEBUG lists w →
      valid_call lists w o →
      run_op NDEBUG o w = Some (tt, w') →
      reachable NDEBUG lists w'.

Definition all_rings (lists : list addr) (w : world) : Prop :=
  ∀ s, s ∈ lists → ∃ l, ring w s l.

(** Two empty containers at [0] and [10] and five unlinked elements. *)
Definition start : world :=
  exec (construct_list 0 ;;; construct_list 10 ;;;
        construct_node 1 ;;; construct_node 2 ;;; construct_node 3 ;;;
        construct_node 4 ;;; construct_node 5) w0.

Definition session : list op :=
  [ OpPushBack 0 2; OpPushFront 0 1; OpPushBack 10 4; OpInsert 10 (Some 4) 3;
    OpSplice 0 (Some 2) 10; OpErase 0 (Some 4); OpPopFront 0; OpPopBack 0;
    OpInsert 10 (Some 10) 5 ].

Fixpoint run_ops (NDEBUG : bool) (os : list op) : M unit :=
  match os with
  | [] => ret tt
  | o :: os' => run_op NDEBUG o ;;; run_ops NDEBUG os'
  end.

(** The memory after the first [k] calls of [session]. *)
Definition session_state (k : nat) : world :=
  exec (run_ops false (take k session)) start.

(** ** Objects

    [w] and [w'] hold the same objects: the same link records and the same
    hook flags are live, whatever their values. *)
Definition same_objects (w w' : world) : Prop :=
  dom (prev_ w') = dom (prev_ w) ∧ dom (next_ w') = dom (next_ w) ∧
  dom (is_linked_ w') = dom (is_linked_ w).

(** A computation that neither creates nor destroys an object. *)
Definition keeps_objects {A} (m : M A) : Prop :=
  ∀ w a w', m w = Some (a, w') → same_objects w w'.

(** ** Sequences and runs *)

Lemma lst_cons a b l : lst a (b :: l) = lst b l.
Proof.
  unfold lst. revert a b. induction l as [|c l IH]; intros a b; [done|].
  change (List.last (b :: c :: l) a) with (List.last (c :: l) a).
  by rewrite !IH.
Qed.

Lemma lst_app a l1 l2 : lst a (l1 ++ l2) = lst (lst a l1) l2.
Proof.
  revert a. induction l1 as [|b l1 IH]; intros a; [done|].
  simpl. rewrite !lst_cons. apply IH.
Qed.

Lemma lst_snoc a l x : lst a (l ++ [x]) = x.
Proof. by rewrite lst_app. Qed.

Lemma lst_elem a l : lst a l ∈ a :: l.
Proof.
  revert a. induction l as [|b l IH]; intros a; [set_solver|].
  rewrite lst_cons. specialize (IH b). set_solver.
Qed.

Lemma lst_nil_or_snoc a l : l = [] ∨ ∃ l', l = l' ++ [lst a l].
Proof.
  destruct (decide (l = [])) as [|Hne]; [by left|right].
  exists (removelast l). unfold lst. by apply app_removelast_last.
Qed.

Lemma path_app w a l1 l2 :
  path w a (l1 ++ l2) ↔ path w a l1 ∧ path w (lst a l1) l2.
Proof.
  revert a. induction l1 as [|b l1 IH]; intros a; simpl.
  - unfold lst; simpl. tauto.
  - rewrite lst_cons, IH. tauto.
Qed.

Lemma cyc_rot w a b l1 l2 :
  cyc w a (l1 ++ b :: l2) ↔ cyc w b (l2 ++ a :: l1).
Proof.
  unfold cyc. rewrite !path_app, !lst_app. simpl. rewrite !lst_cons. tauto.
Qed.

(** A run survives any update that leaves alone the forward reference of
    every node but its last and the backward reference of every node but its
    first. *)
Lemma path_frame w w' a l :
  NoDup (a :: l) →
  (∀ x, x ∈ a :: l → x ≠ lst a l → next_ w' !! x = next_ w !! x) →
  (∀ x, x ∈ l → prev_ w' !! x = prev_ w !! x) →
  path w a l → path w' a l.
Proof.
  revert a. induction l as [|b l IH]; intros a Hnd Hn Hp; [done|].
  simpl. intros [[Hab Hba] Hpath]. split.
  - split.
    + rewrite Hn; [done|set_solver|].
      rewrite lst_cons. intros ->.
      apply NoDup_cons in Hnd as [Hnd _]. apply Hnd, lst_elem.
    + rewrite Hp; [done|set_solver].
  - apply NoDup_cons in Hnd as [Ha Hnd]. apply IH; [done| |set_solver|done].
    intros x Hx Hne. apply Hn; [set_solver|by rewrite lst_cons].
Qed.

Lemma path_consistent w a l x :
  path w a l → x ∈ l →
  ∃ p, p ∈ a :: l ∧ prev_ w !! x = Some (Some p) ∧ next_ w !! p = Some (Some x).
Proof.
  revert a. induction l as [|b l IH]; intros a Hp Hx; [set_solver|].
  destruct Hp as [[Hab Hba] Hp].
  apply elem_of_cons in Hx as [->|Hx].
  - exists a. set_solver.
  - destruct (IH b Hp Hx) as (p & ? & ? & ?). exists p. set_solver.
Qed.

Lemma path_consistent_next w a l x :
  path w a l → x ∈ a :: l → x ≠ lst a l →
  ∃ n, n ∈ l ∧ next_ w !! x = Some (Some n) ∧ prev_ w !! n = Some (Some x).
Proof.
  revert a. induction l as [|b l IH]; intros a Hp Hx Hne.
  - unfold lst in Hne; simpl in Hne. set_solver.
  - destruct Hp as [[Hab Hba] Hp]. rewrite lst_cons in Hne.
    apply elem_of_cons in Hx as [->|Hx].
    + exists b. set_solver.
    + destruct (IH b Hp Hx Hne) as (n & ? & ? & ?). exists n. set_solver.
Qed.

(** Every node of a cycle, the anchor included, is consistent with both of
    its neighbours. *)
Lemma cyc_consistent w a l x : cyc w a l → x ∈ a :: l → consistent w x.
Proof.
  intros [Hp [Hla Hal]] Hx. unfold consistent.
  assert (∃ p, prev_ w !! x = Some (Some p) ∧ next_ w !! p = Some (Some x))
    as (p & Hp1 & Hp2).
  { apply elem_of_cons in Hx as [->|Hx]; [by eauto|].
    destruct (path_consistent w a l x Hp Hx) as (p & _ & ? & ?). eauto. }
  assert (∃ n, next_ w !! x = Some (Some n) ∧ prev_ w !! n = Some (Some x))
    as (n & Hn1 & Hn2).
  { destruct (decide (x = lst a l)) as [->|Hne]; [by eauto|].
    destruct (path_consistent_next w a l x Hp Hx Hne) as (n & _ & ? & ?). eauto. }
  exists p, n. eauto.
Qed.

(** ** Running the primitives *)

Lemma run_bind {A B} (m : M A) (k : A → M B) w a w' :
  m w = Some (a, w') → bind m k w = k a w'.
Proof. unfold bind. by intros ->. Qed.

Lemma run_next_node w a v :
  next_ w !! a = Some v → next_node (Some a) w = Some (v, w).
Proof. unfold next_node. by intros ->. Qed.

Lemma run_prev_node w a v :
  prev_ w !! a = Some v → prev_node (Some a) w = Some (v, w).
Proof. unfold prev_node. by intros ->. Qed.

Lemma run_set_next w a q :
  is_Some (next_ w !! a) →
  set_next (Some a) q w =
    Some (tt, World (prev_ w) (<[a := q]> (next_ w)) (is_linked_ w) (stderr w)).
Proof. unfold set_next. by intros [v ->]. Qed.

Lemma run_set_prev w a q :
  is_Some (prev_ w !! a) →
  set_prev (Some a) q w =
    Some (tt, World (<[a := q]> (prev_ w)) (next_ w) (is_linked_ w) (stderr w)).
Proof. unfold set_prev. by intros [v ->]. Qed.

Lemma run_is_linked w a b :
  is_linked_ w !! a = Some b → is_linked (Some a) w = Some (b, w).
Proof. unfold is_linked. by intros ->. Qed.

Lemma run_store_is_linked w a b :
  is_Some (is_linked_ w !! a) →
  store_is_linked (Some a) b w =
    Some (tt, World (prev_ w) (next_ w) (<[a := b]> (is_linked_ w)) (stderr w)).
Proof. unfold store_is_linked. by intros [v ->]. Qed.

Lemma is_Some_insert {V} (m : gmap nat V) i j v :
  is_Some (m !! j) → is_Some (<[i := v]> m !! j).
Proof. rewrite lookup_insert_is_Some. destruct (decide (i = j)); auto. Qed.

Lemma run_link_between_base w x p q :
  is_Some (prev_ w !! x) → is_Some (next_ w !! x) →
  is_Some (next_ w !! p) → is_Some (prev_ w !! q) →
  link_between_base (Some x) (Some p) (Some q) w =
    Some (tt, World (<[q := Some x]> (<[x := Some p]> (prev_ w)))
                    (<[p := Some x]> (<[x := Some q]> (next_ w)))
                    (is_linked_ w) (stderr w)).
Proof.
  intros Hpx Hnx Hnp Hpq. unfold link_between_base.
  erewrite run_bind by by apply run_set_prev.
  erewrite run_bind by by apply run_set_next.
  erewrite run_bind by (apply run_set_next; simpl; by apply is_Some_insert).
  rewrite run_set_prev; [done|]. simpl. by apply is_Some_insert.
Qed.

Lemma run_unlink_base w x p n :
  prev_ w !! x = Some (Some p) → next_ w !! x = Some (Some n) →
  is_Some (next_ w !! p) → is_Some (prev_ w !! n) →
  unlink_base (Some x) w =
    Some (tt, World (<[n := Some p]> (prev_ w)) (<[p := Some n]> (next_ w))
                    (is_linked_ w) (stderr w)).
Proof.
  intros Hp Hn Hnp Hpn. unfold unlink_base.
  erewrite run_bind by by apply run_prev_node.
  erewrite run_bind by by apply run_next_node.
  erewrite run_bind by by apply run_set_next.
  by rewrite run_set_prev.
Qed.

Lemma run_transfer_range w pos first last tail before pprev :
  prev_ w !! last = Some (Some tail) →
  prev_ w !! first = Some (Some before) →
  prev_ w !! pos = Some (Some pprev) →
  is_Some (next_ w !! before) → is_Some (next_ w !! pprev) →
  is_Some (next_ w !! tail) →
  transfer_range (Some pos) (Some first) (Some last) w =
    Some (tt, World
      (<[pos := Some tail]> (<[first := Some pprev]> (<[last := Some before]> (prev_ w))))
      (<[tail := Some pos]> (<[pprev := Some first]> (<[before := Some last]> (next_ w))))
      (is_linked_ w) (stderr w)).
Proof.
  intros Hl Hf Hp Hb Hpp Ht. unfold transfer_range.
  erewrite run_bind by by apply run_prev_node.
  erewrite run_bind by by apply run_prev_node.
  erewrite run_bind by by apply run_prev_node.
  erewrite run_bind by by apply run_set_next.
  erewrite run_bind by (apply run_set_prev; simpl; eauto).
  erewrite run_bind by (apply run_set_next; simpl; by apply is_Some_insert).
  erewrite run_bind
    by (apply run_set_prev; simpl; apply is_Some_insert; eauto).
  erewrite run_bind
    by (apply run_set_next; simpl; by do 2 apply is_Some_insert).
  rewrite run_set_prev; [done|]. simpl. do 2 apply is_Some_insert. eauto.
Qed.

(** ** The primitives on cycles *)

Lemma disj_ne (A B : list nat) x y :
  (∀ z, z ∈ A → z ∉ B) → x ∈ A → y ∈ B → x ≠ y.
Proof. intros H Hx Hy Heq. subst. by apply (H y). Qed.

Lemma disj_ne_sym (A B : list nat) x y :
  (∀ z, z ∈ A → z ∉ B) → x ∈ A → y ∈ B → y ≠ x.
Proof. intros H Hx Hy Heq. subst. by apply (H x). Qed.

(** List membership, read off the memberships at hand. *)
Ltac mem :=
  solve [ repeat match goal with
                 | H : _ ∈ _ |- _ =>
                     progress
                       repeat first [ rewrite elem_of_app in H
                                    | rewrite elem_of_cons in H
                                    | rewrite elem_of_nil in H ]
                 end;
          repeat first [ rewrite elem_of_app | rewrite elem_of_cons ];
          intuition congruence ].

(** Two nodes differ: by assumption, because one is in a sequence the other
    is not in, or because they lie in disjoint sequences. *)
Ltac ne :=
  first
    [ assumption
    | apply not_eq_sym; assumption
    | match goal with
      | H : ?a ∉ ?l |- ?a ≠ ?b =>
          let E := fresh in intros E; apply H; rewrite E; mem
      | H : ?b ∉ ?l |- ?a ≠ ?b =>
          let E := fresh in intros E; apply H; rewrite <- E; mem
      | H : ∀ x, x ∈ ?A → x ∉ ?B |- ?a ≠ ?b =>
          first [ apply (disj_ne A B a b H); mem
                | apply (disj_ne_sym A B b a H); mem ]
      end ].

Ltac lk :=
  repeat first [ rewrite lookup_insert_eq
               | rewrite lookup_insert_ne by ne ].

Lemma cyc_lookups w a l :
  cyc w a l →
  prev_ w !! a = Some (Some (lst a l)) ∧ next_ w !! (lst a l) = Some (Some a).
Proof. intros [_ [? ?]]. done. Qed.

Lemma cyc_is_Some w a l x :
  cyc w a l → x ∈ a :: l → is_Some (prev_ w !! x) ∧ is_Some (next_ w !! x).
Proof.
  intros Hc Hx. destruct (cyc_consistent w a l x Hc Hx) as (p & n & -> & _ & -> & _).
  eauto.
Qed.

(** Linking [x] between the last node of a cycle and its anchor appends [x]
    to the cycle. *)
Lemma cyc_link_between w q m x :
  cyc w q m → NoDup (q :: m) → x ∉ q :: m →
  cyc (World (<[q := Some x]> (<[x := Some (lst q m)]> (prev_ w)))
             (<[lst q m := Some x]> (<[x := Some q]> (next_ w)))
             (is_linked_ w) (stderr w)) q (m ++ [x]).
Proof.
  intros [Hp Hl] Hnd Hx. pose proof (lst_elem q m) as Hlst.
  unfold cyc. rewrite path_app, lst_snoc. split; [split|].
  - eapply path_frame; [done| | |exact Hp]; simpl; intros y Hy.
    + intros Hne. rewrite !lookup_insert_ne; [done|set_solver|done].
    + apply NoDup_cons in Hnd as [Hq _].
      rewrite !lookup_insert_ne; [done|set_solver|set_solver].
  - simpl. split; [|done]. split; simpl.
    + by lk.
    + by lk.
  - split; simpl.
    + by lk.
    + by lk.
Qed.

(** Unlinking the anchor of a cycle leaves the cycle of the other nodes. *)
Lemma cyc_unlink w x n m :
  cyc w x (n :: m) → NoDup (x :: n :: m) →
  cyc (World (<[n := Some (lst n m)]> (prev_ w))
             (<[lst n m := Some n]> (next_ w))
             (is_linked_ w) (stderr w)) n m.
Proof.
  intros [[_ Hp] _] Hnd. apply NoDup_cons in Hnd as [_ Hnd].
  split.
  - eapply path_frame; [done| | |exact Hp]; simpl; intros y Hy.
    + intros Hne. by rewrite lookup_insert_ne.
    + apply NoDup_cons in Hnd as [Hn _].
      rewrite lookup_insert_ne; [done|set_solver].
  - split; simpl; by lk.
Qed.

(** Moving the run [first :: r] of one cycle to the end of another one (that
    is, to just before its anchor [pos]) closes the first cycle over the
    run's gap and appends the run to the second. *)
Lemma cyc_transfer w first r last rs pos d :
  cyc w first (r ++ last :: rs) → cyc w pos d →
  NoDup ((first :: r) ++ (last :: rs) ++ (pos :: d)) →
  let w' := World
    (<[pos := Some (lst first r)]>
       (<[first := Some (lst pos d)]> (<[last := Some (lst last rs)]> (prev_ w))))
    (<[lst first r := Some pos]>
       (<[lst pos d := Some first]> (<[lst last rs := Some last]> (next_ w))))
    (is_linked_ w) (stderr w) in
  cyc w' last rs ∧ cyc w' pos (d ++ first :: r).
Proof.
  intros [Hsrc _] [Hdst _] Hnd w'.
  apply path_app in Hsrc as [Hrun [_ Hrest]].
  apply NoDup_app in Hnd as (Hnd1 & Hd1 & Hnd).
  apply NoDup_app in Hnd as (Hnd2 & Hd2 & Hnd3).
  pose proof (lst_elem first r) as Ht.
  pose proof (lst_elem last rs) as Hb.
  pose proof (lst_elem pos d) as Hq.
  assert (Hh2 : last ∉ rs) by (by apply NoDup_cons in Hnd2 as [? _]).
  assert (Hh1 : first ∉ r) by (by apply NoDup_cons in Hnd1 as [? _]).
  assert (Hh3 : pos ∉ d) by (by apply NoDup_cons in Hnd3 as [? _]).
  unfold cyc. rewrite path_app, lst_app, lst_cons. subst w'.
  split; [split|split; [split; [|split; [split|]]|]]; simpl.
  - eapply path_frame; [done| | |exact Hrest]; simpl.
    all: revert Ht Hb Hq; generalize (lst first r) (lst last rs) (lst pos d).
    all: intros tail before pprev Ht Hb Hq y Hy; try intros Hne.
    all: rewrite !lookup_insert_ne; [done|ne..].
  - clear Hrun Hrest Hdst. revert Ht Hb Hq.
    generalize (lst first r) (lst last rs) (lst pos d).
    intros tail before pprev Ht Hb Hq. split; simpl; by lk.
  - eapply path_frame; [done| | |exact Hdst]; simpl.
    all: revert Ht Hb Hq; generalize (lst first r) (lst last rs) (lst pos d).
    all: intros tail before pprev Ht Hb Hq y Hy; try intros Hne.
    all: rewrite !lookup_insert_ne; [done|ne..].
  - clear Hrun Hrest Hdst. revert Ht Hb Hq.
    generalize (lst first r) (lst last rs) (lst pos d).
    intros tail before pprev Ht Hb Hq. by lk.
  - by lk.
  - eapply path_frame; [done| | |exact Hrun]; simpl.
    all: revert Ht Hb Hq; generalize (lst first r) (lst last rs) (lst pos d).
    all: intros tail before pprev Ht Hb Hq y Hy; try intros Hne.
    all: rewrite !lookup_insert_ne; [done|ne..].
  - split; simpl; by lk.
Qed.

(** ** Positions in a ring

    A position of the container [s :: la ++ lb] is the node [hd s lb]; seen
    from there the cycle reads [hd s lb :: tl (lb ++ [s]) ++ la]. *)

Lemma at_cons (s : addr) (lb : list addr) : hd s lb :: tl (lb ++ [s]) = lb ++ [s].
Proof. by destruct lb. Qed.

Lemma cyc_at w s la lb :
  cyc w s (la ++ lb) ↔ cyc w (hd s lb) (tl (lb ++ [s]) ++ la).
Proof.
  destruct lb as [|b lb]; simpl.
  - by rewrite app_nil_r.
  - rewrite cyc_rot. by rewrite <- app_assoc.
Qed.

Lemma perm_at (s : addr) (la lb : list addr) :
  hd s lb :: tl (lb ++ [s]) ++ la ≡ₚ s :: la ++ lb.
Proof.
  rewrite app_comm_cons, at_cons. rewrite <- app_assoc. simpl.
  rewrite (Permutation_app_comm lb (s :: la)). done.
Qed.

Lemma NoDup_at (s : addr) (la lb : list addr) :
  NoDup (s :: la ++ lb) ↔ NoDup (hd s lb :: tl (lb ++ [s]) ++ la).
Proof. by rewrite perm_at. Qed.

Lemma elem_at (s : addr) (la lb : list addr) x :
  x ∈ hd s lb :: tl (lb ++ [s]) ++ la ↔ x ∈ s :: la ++ lb.
Proof. by rewrite perm_at. Qed.

Lemma path_ext w w' a l :
  prev_ w' = prev_ w → next_ w' = next_ w → path w a l → path w' a l.
Proof.
  intros Hp Hn. revert a. induction l as [|b l IH]; intros a; [done|].
  simpl. unfold link. rewrite Hp, Hn. intros [? ?]. split; [done|by apply IH].
Qed.

Lemma cyc_ext w w' a l :
  prev_ w' = prev_ w → next_ w' = next_ w → cyc w a l → cyc w' a l.
Proof.
  intros Hp Hn [Hpath Hl]. split; [by eapply path_ext|].
  unfold link in *. by rewrite Hp, Hn.
Qed.

Lemma path_same w w' a l :
  (∀ y, y ∈ a :: l → same_links w w' y) → path w a l → path w' a l.
Proof.
  revert a. induction l as [|b l IH]; intros a Hs; [done|].
  simpl. intros [[Hab Hba] Hp]. split.
  - split.
    + destruct (Hs a) as [_ ->]; [mem|done].
    + destruct (Hs b) as [-> _]; [mem|done].
  - apply IH; [|done]. intros y Hy. apply Hs. mem.
Qed.

Lemma cyc_same w w' a l :
  (∀ y, y ∈ a :: l → same_links w w' y) → cyc w a l → cyc w' a l.
Proof.
  intros Hs [Hp [Hla Hal]]. split; [by eapply path_same|].
  split.
  - destruct (Hs (lst a l)) as [_ ->]; [apply lst_elem|done].
  - destruct (Hs a) as [-> _]; [mem|done].
Qed.

(** A ring is untouched by whatever happens to other objects. *)
Lemma ring_frame w w' s l :
  (∀ y, y ∈ s :: l → same_links w w' y) →
  (∀ y, y ∈ s :: l → is_linked_ w' !! y = is_linked_ w !! y) →
  ring w s l → ring w' s l.
Proof.
  intros Hs Hf (Hc & Hnd & Hsent & Hall).
  split; [by eapply cyc_same|]. split; [done|]. split.
  - rewrite Hf; [done|mem].
  - apply Forall_forall. intros y Hy.
    rewrite Forall_forall in Hall. rewrite Hf; [by apply Hall|mem].
Qed.

Lemma hook_not_in_ring w s l x : ring w s l → hook w x false → x ∉ s :: l.
Proof.
  intros (_ & _ & Hsent & Hall) [Hx _] Hin.
  apply elem_of_cons in Hin as [->|Hin]; [congruence|].
  rewrite Forall_forall in Hall. specialize (Hall x Hin). congruence.
Qed.

Lemma ring_elem_linked w s l x :
  ring w s l → x ∈ l → is_linked_ w !! x = Some true.
Proof. intros (_ & _ & _ & Hall) Hx. rewrite Forall_forall in Hall. auto. Qed.

Lemma ring_consistent w s l x : ring w s l → x ∈ s :: l → consistent w x.
Proof. intros [Hc _]. by apply cyc_consistent. Qed.

Lemma ring_begin w s l : ring w s l → next_ w !! s = Some (Some (hd s l)).
Proof.
  intros [[Hp Hl] _]. destruct l as [|b l]; simpl.
  - by destruct Hl.
  - by destruct Hp as [[? _] _].
Qed.

Lemma ring_back w s l : ring w s l → prev_ w !! s = Some (Some (lst s l)).
Proof. intros [Hc _]. by apply cyc_lookups. Qed.

Lemma lst_at (s : addr) (la lb : list addr) :
  lst (hd s lb) (tl (lb ++ [s]) ++ la) = lst s la.
Proof.
  rewrite lst_app. f_equal. destruct lb as [|b lb]; [done|].
  simpl. apply lst_snoc.
Qed.

Lemma ring_prev_at w s la lb :
  ring w s (la ++ lb) → prev_ w !! hd s lb = Some (Some (lst s la)).
Proof.
  intros [Hc _]. apply cyc_at, cyc_lookups in Hc as [Hc _].
  by rewrite lst_at in Hc.
Qed.

Lemma ring_next_at w s la x lb :
  ring w s (la ++ x :: lb) → next_ w !! x = Some (Some (hd s lb)).
Proof.
  intros [Hc _]. apply cyc_rot in Hc as [Hp Hl].
  destruct lb as [|b lb]; simpl in *; by destruct Hp as [[? _] _].
Qed.

Lemma ring_is_Some w s l x :
  ring w s l → x ∈ s :: l → is_Some (prev_ w !! x) ∧ is_Some (next_ w !! x).
Proof. intros [Hc _]. by apply cyc_is_Some. Qed.

(** ** The operations on rings *)

Lemma run_assert NDEBUG (c : M bool) w :
  c w = Some (true, w) → assert_ NDEBUG c w = Some (tt, w).
Proof.
  intros Hc. unfold assert_. destruct NDEBUG; [done|].
  by erewrite run_bind by exact Hc.
Qed.

Lemma run_assert_unlinked NDEBUG w x :
  hook w x false →
  assert_ NDEBUG (let! b := is_linked (Some x) in ret (negb b)) w = Some (tt, w).
Proof.
  intros [Hf _]. apply run_assert.
  by erewrite run_bind by by apply run_is_linked.
Qed.

(** [link_between] of an unlinked hook [x] just before the position
    [hd s lb]. *)
Lemma link_between_ring w s la lb x :
  ring w s (la ++ lb) → hook w x false →
  ∃ w', link_between (Some x) (Some (lst s la)) (Some (hd s lb)) w = Some (tt, w') ∧
        ring w' s (la ++ x :: lb) ∧
        is_linked_ w' = <[x := true]> (is_linked_ w) ∧
        stderr w' = stderr w ∧
        (∀ y, y ∉ x :: s :: la ++ lb → same_links w w' y).
Proof.
  intros Hr Hh. pose proof (hook_not_in_ring _ _ _ _ Hr Hh) as Hx.
  destruct Hh as (Hxf & Hxp & Hxn).
  destruct (ring_is_Some w s (la ++ lb) (lst s la) Hr) as [_ Hpn].
  { pose proof (lst_elem s la). mem. }
  destruct (ring_is_Some w s (la ++ lb) (hd s lb) Hr) as [Hqp _].
  { destruct lb; simpl; mem. }
  destruct Hr as (Hc & Hnd & Hsent & Hall).
  eexists. split; [|split; [|split; [|split]]].
  - unfold link_between, set_linked.
    erewrite run_bind by by apply run_link_between_base.
    by apply run_store_is_linked.
  - split; [|split; [|split]]; simpl.
    + replace (la ++ x :: lb) with ((la ++ [x]) ++ lb) by by rewrite <- app_assoc.
      apply cyc_at. rewrite app_assoc.
      rewrite <- (lst_at s la lb).
      eapply cyc_ext; [| |apply cyc_link_between]; simpl; try done.
      * by apply (proj1 (cyc_at w s la lb)).
      * by apply (proj1 (NoDup_at s la lb)).
      * by rewrite elem_at.
    + change (NoDup ((s :: la) ++ x :: lb)).
      rewrite <- Permutation_middle. simpl. by apply NoDup_cons.
    + rewrite lookup_insert_ne; [done|]. intros ->. congruence.
    + rewrite Forall_forall in Hall. apply Forall_forall. intros y Hy.
      destruct (decide (y = x)) as [->|Hne]; [by rewrite lookup_insert_eq|].
      rewrite lookup_insert_ne by done. apply Hall.
      revert Hy. rewrite !elem_of_app, elem_of_cons. tauto.
  - done.
  - done.
  - intros y Hy. pose proof (lst_elem s la) as Hl.
    assert (Hpos : hd s lb ∈ s :: la ++ lb) by (destruct lb; simpl; mem).
    assert (y ≠ x) by (intros ->; apply Hy; mem).
    assert (y ≠ lst s la) by (intros ->; apply Hy; mem).
    assert (y ≠ hd s lb) by (intros ->; apply Hy; mem).
    split; simpl; by rewrite !lookup_insert_ne.
Qed.

(** [insert_before] at a position of the ring. *)
Lemma insert_before_ring NDEBUG w s la lb x :
  ring w s (la ++ lb) → hook w x false →
  ∃ w', insert_before NDEBUG (iter_at s lb) (Some x) w = Some (tt, w') ∧
        ring w' s (la ++ x :: lb) ∧
        is_linked_ w' = <[x := true]> (is_linked_ w) ∧
        stderr w' = stderr w ∧
        (∀ y, y ∉ x :: s :: la ++ lb → same_links w w' y).
Proof.
  intros Hr Hh.
  destruct (link_between_ring w s la lb x Hr Hh) as (w' & Hrun & Hrest).
  exists w'. split; [|done].
  unfold insert_before, iter_at.
  erewrite run_bind by by apply run_assert_unlinked.
  erewrite run_bind by (apply run_prev_node; by eapply ring_prev_at).
  done.
Qed.

(** [insert_after] the sentinel. *)
Lemma insert_after_ring NDEBUG w s l x :
  ring w s l → hook w x false →
  ∃ w', insert_after NDEBUG (Some s) (Some x) w = Some (tt, w') ∧
        ring w' s (x :: l) ∧
        is_linked_ w' = <[x := true]> (is_linked_ w) ∧
        stderr w' = stderr w ∧
        (∀ y, y ∉ x :: s :: l → same_links w w' y).
Proof.
  intros Hr Hh.
  destruct (link_between_ring w s [] l x Hr Hh) as (w' & Hrun & Hrest).
  exists w'. split; [|done].
  unfold insert_after.
  erewrite run_bind by by apply run_assert_unlinked.
  erewrite run_bind by (apply run_next_node; by eapply ring_begin).
  done.
Qed.

Lemma NoDup_remove_mid (s x : addr) (la lb : list addr) :
  NoDup (s :: la ++ x :: lb) → NoDup (s :: la ++ lb) ∧ x ∉ s :: la ++ lb.
Proof.
  change (NoDup ((s :: la) ++ x :: lb) → NoDup ((s :: la) ++ lb) ∧ x ∉ (s :: la) ++ lb).
  rewrite <- Permutation_middle. intros [? ?]%NoDup_cons. done.
Qed.

(** [unlink] of an element of the ring. *)
Lemma unlink_ring NDEBUG w s la x lb :
  ring w s (la ++ x :: lb) →
  ∃ w', unlink NDEBUG (Some x) w = Some (tt, w') ∧
        ring w' s (la ++ lb) ∧
        is_linked_ w' = <[x := false]> (is_linked_ w) ∧
        stderr w' = stderr w ∧
        (∀ y, y ∉ s :: la ++ lb → same_links w w' y).
Proof.
  intros Hr.
  assert (Hxl : is_linked_ w !! x = Some true) by (eapply ring_elem_linked; [done|mem]).
  pose proof (ring_next_at _ _ _ _ _ Hr) as Hnext.
  pose proof (ring_prev_at w s la (x :: lb) Hr) as Hprev. simpl in Hprev.
  destruct (ring_is_Some w s _ (lst s la) Hr) as [_ Hpn].
  { pose proof (lst_elem s la). mem. }
  destruct (ring_is_Some w s _ (hd s lb) Hr) as [Hqp _].
  { destruct lb; simpl; mem. }
  destruct Hr as (Hc & Hnd & Hsent & Hall).
  apply NoDup_remove_mid in Hnd as [Hnd Hx].
  eexists. split; [|split; [|split; [|split]]].
  - unfold unlink.
    erewrite run_bind by (apply run_assert; by apply run_is_linked).
    erewrite run_bind by by eapply run_unlink_base.
    apply run_store_is_linked. simpl. eauto.
  - split; [|split; [|split]]; simpl.
    + apply cyc_at. rewrite <- (lst_at s la lb).
      eapply cyc_ext; [| |apply (cyc_unlink w x)]; simpl; try done.
      * rewrite app_comm_cons, at_cons, <- app_assoc. simpl. by apply cyc_rot.
      * apply NoDup_cons. split; [by rewrite elem_at|].
        by apply (proj1 (NoDup_at s la lb)).
    + done.
    + rewrite lookup_insert_ne; [done|]. intros ->. apply Hx. mem.
    + rewrite Forall_forall in Hall. apply Forall_forall. intros y Hy.
      rewrite lookup_insert_ne.
      * apply Hall. revert Hy. rewrite !elem_of_app, elem_of_cons. tauto.
      * intros ->. apply Hx. mem.
  - done.
  - done.
  - intros y Hy. pose proof (lst_elem s la) as Hl.
    assert (Hpos : hd s lb ∈ s :: la ++ lb) by (destruct lb; simpl; mem).
    assert (y ≠ lst s la) by (intros ->; apply Hy; mem).
    assert (y ≠ hd s lb) by (intros ->; apply Hy; mem).
    split; simpl; by rewrite !lookup_insert_ne.
Qed.

(** ** Two rings of one memory *)

Lemma cyc_next_closed w a l y v :
  cyc w a l → y ∈ a :: l → next_ w !! y = Some (Some v) → v ∈ a :: l.
Proof.
  intros [Hp [Hla _]] Hy Hv.
  destruct (decide (y = lst a l)) as [->|Hne].
  - rewrite Hla in Hv. injection Hv as <-. mem.
  - destruct (path_consistent_next w a l y Hp Hy Hne) as (n & Hn & Hyn & _).
    rewrite Hyn in Hv. injection Hv as <-. mem.
Qed.

Lemma path_in_closed w (S : list addr) a l :
  (∀ u v, u ∈ S → next_ w !! u = Some (Some v) → v ∈ S) →
  a ∈ S → path w a l → ∀ z, z ∈ l → z ∈ S.
Proof.
  intros Hcl. revert a. induction l as [|b l IH]; intros a Ha Hp z Hz.
  - by apply elem_of_nil in Hz.
  - destruct Hp as [[Hab _] Hp].
    assert (b ∈ S) by by eapply Hcl.
    apply elem_of_cons in Hz as [->|Hz]; [done|]. by eapply IH.
Qed.

(** Two containers that share a node are the same container. *)
Lemma ring_share w s1 l1 s2 l2 y :
  ring w s1 l1 → ring w s2 l2 → y ∈ s1 :: l1 → y ∈ s2 :: l2 → s1 = s2.
Proof.
  intros Hr1 (Hc2 & Hnd2 & Hs2 & _) Hy1 Hy2.
  destruct (decide (s1 = s2)) as [|Hne]; [done|exfalso].
  assert (s2 ∈ s1 :: l1) as Hin.
  { destruct (decide (y = s2)) as [->|Hys]; [done|].
    assert (y ∈ l2) as Hyl by mem.
    apply list_elem_of_split in Hyl as (la & lb & ->).
    apply cyc_rot in Hc2 as [Hp _].
    eapply (path_in_closed w (s1 :: l1) y (lb ++ s2 :: la)); [|done|done|mem].
    intros u v Hu Hv. destruct Hr1 as [Hc1 _]. by eapply cyc_next_closed. }
  assert (s2 ∈ l1) as Hin' by mem.
  pose proof (ring_elem_linked _ _ _ _ Hr1 Hin'). congruence.
Qed.

Lemma ring_disjoint w s1 l1 s2 l2 :
  ring w s1 l1 → ring w s2 l2 → s1 ≠ s2 → ∀ y, y ∈ s1 :: l1 → y ∉ s2 :: l2.
Proof. intros Hr1 Hr2 Hne y Hy1 Hy2. apply Hne. by eapply ring_share. Qed.

(** ** The traversals on a ring *)

Lemma forward_loop_ring w s la lb acc fuel :
  ring w s (la ++ lb) → length lb < fuel →
  forward_loop fuel (Some s) (iter_at s lb) acc w = Some (acc ++ lb, w).
Proof.
  revert la acc fuel. induction lb as [|b lb IH]; intros la acc fuel Hr Hf.
  - destruct fuel as [|fuel]; [simpl in Hf; lia|]. simpl.
    rewrite bool_decide_eq_false_2 by (intros H; by apply H).
    by rewrite app_nil_r.
  - destruct fuel as [|fuel]; [simpl in Hf; lia|]. simpl.
    assert (b ≠ s) as Hne.
    { destruct Hr as (_ & [Hs _]%NoDup_cons & _). intros ->. apply Hs. mem. }
    rewrite bool_decide_eq_true_2 by (unfold iter_at; simpl; congruence).
    unfold iter_next.
    erewrite run_bind by (apply run_next_node; by eapply ring_next_at).
    replace (acc ++ b :: lb) with ((acc ++ [b]) ++ lb) by by rewrite <- app_assoc.
    apply (IH (la ++ [b])); [by rewrite <- app_assoc|simpl in Hf; lia].
Qed.

Lemma forward_ring w s l fuel :
  ring w s l → length l < fuel → forward fuel (Some s) w = Some (l, w).
Proof.
  intros Hr Hf. unfold forward, begin_.
  erewrite run_bind by (apply run_next_node; by eapply ring_begin).
  apply (forward_loop_ring w s [] l [] fuel); done.
Qed.

Lemma backward_loop_ring w s la lb acc fuel :
  ring w s (la ++ lb) → length la < fuel →
  backward_loop fuel (Some s) (iter_at s lb) acc w = Some (acc ++ rev la, w).
Proof.
  revert lb acc fuel. induction la as [|a la IH] using rev_ind;
    intros lb acc fuel Hr Hf.
  - destruct fuel as [|fuel]; [simpl in Hf; lia|]. simpl. unfold begin_.
    erewrite run_bind by (apply run_next_node; by eapply ring_begin).
    simpl. rewrite bool_decide_eq_false_2 by (intros H; by apply H).
    by rewrite app_nil_r.
  - rewrite length_app in Hf; simpl in Hf.
    destruct fuel as [|fuel]; [lia|]. simpl. unfold begin_.
    erewrite run_bind by (apply run_next_node; by eapply ring_begin).
    assert (hd s lb ≠ hd s ((la ++ [a]) ++ lb)) as Hne.
    { destruct Hr as (_ & Hnd & _).
      rewrite <- app_assoc in Hnd. rewrite <- app_assoc.
      destruct la as [|a' la]; simpl in *.
      - apply NoDup_cons in Hnd as [Hs [Ha _]%NoDup_cons].
        destruct lb; simpl; [intros ->; apply Hs; mem|intros ->; apply Ha; mem].
      - apply NoDup_cons in Hnd as [Hs [Ha _]%NoDup_cons].
        destruct lb; simpl; [intros ->; apply Hs; mem|intros ->; apply Ha; mem]. }
    rewrite bool_decide_eq_true_2 by (unfold iter_at; congruence).
    unfold iter_prev.
    erewrite run_bind by (apply run_prev_node; by eapply ring_prev_at).
    rewrite lst_snoc. rewrite rev_app_distr. simpl.
    replace (acc ++ a :: rev la) with ((acc ++ [a]) ++ rev la)
      by by rewrite <- app_assoc.
    apply (IH (a :: lb)); [by rewrite <- app_assoc in Hr|lia].
Qed.

Lemma backward_ring w s l fuel :
  ring w s l → length l < fuel → backward fuel (Some s) w = Some (rev l, w).
Proof.
  intros Hr Hf. unfold backward, end_.
  erewrite run_bind by done.
  apply (backward_loop_ring w s l [] [] fuel); [by rewrite app_nil_r|done].
Qed.

(** ** Moving a leading run from one ring to a position of another *)

Lemma transfer_ring w sS first r rest sD la lb :
  ring w sS ((first :: r) ++ rest) → ring w sD (la ++ lb) → sS ≠ sD →
  ∃ w', transfer_range (iter_at sD lb) (Some first) (iter_at sS rest) w
          = Some (tt, w') ∧
        ring w' sS rest ∧
        ring w' sD (la ++ (first :: r) ++ lb) ∧
        is_linked_ w' = is_linked_ w ∧
        stderr w' = stderr w ∧
        (∀ y, y ∉ (sS :: (first :: r) ++ rest) ++ (sD :: la ++ lb) →
              same_links w w' y).
Proof.
  intros HrS HrD Hne.
  pose proof (ring_disjoint _ _ _ _ _ HrS HrD Hne) as Hdisj.
  pose proof (ring_prev_at w sS (first :: r) rest HrS) as Hplast.
  rewrite lst_cons in Hplast.
  pose proof (ring_prev_at w sS [] ((first :: r) ++ rest) HrS) as Hpfirst.
  simpl in Hpfirst. change (lst sS []) with sS in Hpfirst.
  pose proof (ring_prev_at w sD la lb HrD) as Hppos.
  destruct (ring_is_Some w sS _ sS HrS) as [_ HnS]; [mem|].
  destruct (ring_is_Some w sD _ (lst sD la) HrD) as [_ HnP].
  { pose proof (lst_elem sD la). mem. }
  destruct (ring_is_Some w sS _ (lst first r) HrS) as [_ HnT].
  { pose proof (lst_elem first r). mem. }
  destruct HrS as (HcS & HndS & HfS & HallS).
  destruct HrD as (HcD & HndD & HfD & HallD).
  set (pos := hd sD lb) in *. set (last := hd sS rest) in *.
  set (d := tl (lb ++ [sD]) ++ la).
  set (rs := tl (rest ++ [sS])).
  assert (cyc w pos d) as HcD' by by apply (proj1 (cyc_at w sD la lb)).
  assert (cyc w first (r ++ last :: rs)) as HcS'.
  { apply cyc_rot. by apply (proj1 (cyc_at w sS (first :: r) rest)). }
  assert (last :: rs = rest ++ [sS]) as Hlrs by apply at_cons.
  assert (lst last rs = sS) as Hbefore.
  { unfold last, rs. rewrite <- (app_nil_r (tl _)). by rewrite lst_at. }
  assert (lst pos d = lst sD la) as Hpprev by apply lst_at.
  assert (NoDup ((first :: r) ++ (last :: rs) ++ (pos :: d))) as Hnd.
  { rewrite Hlrs. unfold pos, d. rewrite perm_at.
    rewrite app_assoc. apply NoDup_app. split; [|split; [|done]].
    - rewrite app_assoc. by rewrite <- Permutation_cons_append.
    - intros y Hy. apply Hdisj. mem. }
  destruct (cyc_transfer w first r last rs pos d HcS' HcD' Hnd) as [HcS2 HcD2].
  rewrite Hbefore, Hpprev in HcS2, HcD2.
  eexists. split; [|split; [|split; [|split; [|split]]]].
  - unfold iter_at. fold pos. fold last. by eapply run_transfer_range.
  - split; [|split; [|split]]; simpl.
    + apply (proj2 (cyc_at _ sS [] rest)). fold last. fold rs.
      rewrite app_nil_r. eapply cyc_ext; [| |exact HcS2]; done.
    + apply NoDup_cons in HndS as [HsS HndS].
      apply NoDup_app in HndS as (_ & _ & HndS).
      apply NoDup_cons. split; [|done]. intros Hin. apply HsS. mem.
    + done.
    + rewrite Forall_app in HallS. by destruct HallS.
  - split; [|split; [|split]]; simpl.
    + change (first :: r ++ lb) with ((first :: r) ++ lb).
      rewrite (app_assoc la). apply (proj2 (cyc_at _ sD _ lb)).
      fold pos. rewrite app_assoc. fold d.
      eapply cyc_ext; [| |exact HcD2]; done.
    + apply NoDup_cons in HndS as [HsS HndS].
      apply NoDup_app in HndS as (HndR & _ & _).
      change (NoDup ((sD :: la) ++ (first :: r) ++ lb)).
      rewrite (Permutation_app_swap_app (sD :: la) (first :: r) lb).
      apply NoDup_app. split; [done|]. split; [|done].
      intros y Hy Hy'. apply (Hdisj y); mem.
    + done.
    + change (first :: r ++ lb) with ((first :: r) ++ lb).
      rewrite !Forall_app in *. tauto.
  - done.
  - done.
  - intros y Hy. pose proof (lst_elem sD la) as Hl1.
    pose proof (lst_elem first r) as Hl2.
    assert (Hpos : pos ∈ sD :: la ++ lb) by (unfold pos; destruct lb; simpl; mem).
    assert (Hlast : last ∈ sS :: rest) by (unfold last; destruct rest; simpl; mem).
    assert (y ≠ pos) by (intros ->; apply Hy; mem).
    assert (y ≠ last) by (intros ->; apply Hy; mem).
    assert (y ≠ first) by (intros ->; apply Hy; mem).
    assert (y ≠ sS) by (intros ->; apply Hy; mem).
    assert (y ≠ lst sD la) by (intros ->; apply Hy; mem).
    assert (y ≠ lst first r) by (intros ->; apply Hy; mem).
    split; simpl; by rewrite !lookup_insert_ne.
Qed.

(** ** The facts of the concrete memories *)

(** A decidable fact about a concrete memory holds by evaluation. *)
Ltac by_evaluation := apply (bool_decide_unpack _); vm_compute; reflexivity.

Lemma demo_ring_0 : ring demo 0 [1; 2; 3].
Proof. by_evaluation. Qed.

Lemma demo_ring_10 : ring demo 10 [11; 12].
Proof. by_evaluation. Qed.

Lemma demo_hook_4 : hook demo 4 false.
Proof. by_evaluation. Qed.

Lemma demo_empty_ring : ring demo_empty 0 [].
Proof. by_evaluation. Qed.

(** Both builds set up the same memory. *)
Lemma demo_any_build : setup true w0 = Some (tt, demo).
Proof. vm_compute. reflexivity. Qed.

(** The scenarios of [tests/unit.cc] run on the model. *)
Example test_PushBackOrder :
  (let! f := forward 4 (Some 0) in
   let! b := backward 4 (Some 0) in
   let! n := size 4 (Some 0) in ret (f, b, n)) demo
  = Some (([1; 2; 3], [3; 2; 1], 3), demo).
Proof. vm_compute. reflexivity. Qed.

Example test_EraseMiddle :
  (let! it := erase false (Some 0) (Some 2) in
   let! f := forward 4 (Some 0) in ret (it, f)) demo
  = Some ((Some 3, [1; 3]), exec (erase false (Some 0) (Some 2)) demo).
Proof. vm_compute. reflexivity. Qed.

Example test_SpliceToMiddle :
  (splice (Some 0) (Some 2) (Some 10) ;;;
   let! f := forward 9 (Some 0) in
   let! b := backward 9 (Some 0) in
   let! o := forward 9 (Some 10) in ret (f, b, o)) demo
  = Some (([1; 11; 12; 2; 3], [3; 2; 12; 11; 1], []),
          exec (splice (Some 0) (Some 2) (Some 10)) demo).
Proof. vm_compute. reflexivity. Qed.

Example test_ExtractFrontPartial :
  (let! n := extract_front (Some 0) (Some 10) 2 in
   let! f := forward 9 (Some 0) in
   let! o := forward 9 (Some 10) in
   let! ob := backward 9 (Some 10) in ret (n, f, o, ob)) demo
  = Some ((2, [3], [11; 12; 1; 2], [2; 1; 12; 11]),
          exec (extract_front (Some 0) (Some 10) 2) demo).
Proof. vm_compute. reflexivity. Qed.

Example test_AutoUnlinkMiddle :
  (destroy false 2 ;;;
   let! f := forward 4 (Some 0) in
   let! b := backward 4 (Some 0) in ret (f, b)) demo
  = Some (([1; 3], [3; 1]), exec (destroy false 2) demo).
Proof. vm_compute. reflexivity. Qed.

Example test_TryPopFrontEmpty :
  try_pop_front false (Some 0) demo_empty = Some (None, demo_empty).
Proof. vm_compute. reflexivity. Qed.

Example test_ClearUnlinksAll :
  (clear false 4 (Some 0) ;;;
   let! a := is_linked (Some 1) in
   let! b := is_linked (Some 2) in
   let! c := is_linked (Some 3) in
   let! f := forward 4 (Some 0) in ret (a, b, c, f)) demo
  = Some ((false, false, false, []), exec (clear false 4 (Some 0)) demo).
Proof. vm_compute. reflexivity. Qed.

Example test_EraseRangeMiddle :
  (let! it := erase_range false 4 (Some 0) (Some 2) (Some 0) in
   let! f := forward 4 (Some 0) in
   let! b := backward 4 (Some 0) in ret (it, f, b)) demo
  = Some ((Some 0, [1], [1]),
          exec (erase_range false 4 (Some 0) (Some 2) (Some 0)) demo).
Proof. vm_compute. reflexivity. Qed.

Example test_StaticRemove :
  (remove false (Some 2) ;;; remove false (Some 4) ;;;
   let! b := is_linked (Some 2) in
   let! f := forward 4 (Some 0) in ret (b, f)) demo
  = Some ((false, [1; 3]),
          exec (remove false (Some 2) ;;; remove false (Some 4)) demo).
Proof. vm_compute. reflexivity. Qed.

Example test_SpliceCellSingle :
  (splice_cell (Some 0) (Some 2) (Some 10) (Some 12) ;;;
   let! f := forward 9 (Some 0) in
   let! o := forward 9 (Some 10) in
   let! ob := backward 9 (Some 10) in ret (f, o, ob)) demo
  = Some (([1; 12; 2; 3], [11], [11]),
          exec (splice_cell (Some 0) (Some 2) (Some 10) (Some 12)) demo).
Proof. vm_compute. reflexivity. Qed.

Example test_ExtractFrontAll :
  (let! n := extract_front (Some 0) (Some 10) 100 in
   let! f := forward 9 (Some 0) in
   let! o := forward 9 (Some 10) in ret (n, f, o)) demo
  = Some ((3, [], [11; 12; 1; 2; 3]),
          exec (extract_front (Some 0) (Some 10) 100) demo).
Proof. vm_compute. reflexivity. Qed.

(** ** Auxiliary facts about the operations *)

Lemma run_assert_not_end NDEBUG w s x :
  x ≠ s →
  assert_ NDEBUG (let! e := end_ (Some s) in ret (bool_decide (Some x ≠ e))) w
    = Some (tt, w).
Proof.
  intros Hne. apply run_assert. unfold end_.
  erewrite run_bind by done. unfold ret.
  rewrite bool_decide_eq_true_2; [done|congruence].
Qed.

Lemma ring_elem_ne_sentinel w s l x : ring w s l → x ∈ l → x ≠ s.
Proof. intros (_ & [Hs _]%NoDup_cons & _) Hx ->. done. Qed.

Lemma run_empty w s l :
  ring w s l → empty (Some s) w = Some (bool_decide (l = []), w).
Proof.
  intros Hr. unfold empty.
  erewrite run_bind by (apply run_next_node; by eapply ring_begin).
  unfold ret. do 2 f_equal. destruct l as [|b l]; simpl.
  - by rewrite !bool_decide_eq_true_2.
  - assert (b ≠ s) by (eapply ring_elem_ne_sentinel; [exact Hr|mem]).
    by rewrite (bool_decide_eq_false_2 (Some b = Some s)) by congruence.
Qed.

Lemma run_assert_nonempty NDEBUG w s l :
  ring w s l → l ≠ [] →
  assert_ NDEBUG (let! e := empty (Some s) in ret (negb e)) w = Some (tt, w).
Proof.
  intros Hr Hne. apply run_assert.
  erewrite run_bind by by eapply run_empty.
  by rewrite bool_decide_eq_false_2.
Qed.

Lemma pop_front_unlink NDEBUG w s x l :
  ring w s (x :: l) → pop_front NDEBUG (Some s) w = unlink NDEBUG (Some x) w.
Proof.
  intros Hr. unfold pop_front.
  erewrite run_bind by by eapply run_assert_nonempty.
  by erewrite run_bind by (apply run_next_node; by eapply ring_begin).
Qed.

Lemma pop_back_unlink NDEBUG w s l x :
  ring w s (l ++ [x]) → pop_back NDEBUG (Some s) w = unlink NDEBUG (Some x) w.
Proof.
  intros Hr. unfold pop_back.
  erewrite run_bind by (eapply run_assert_nonempty; [exact Hr|by destruct l]).
  erewrite run_bind by (apply run_prev_node; by eapply ring_back).
  by rewrite lst_snoc.
Qed.

Lemma front_ring NDEBUG w s x l :
  ring w s (x :: l) → front NDEBUG (Some s) w = Some (Some x, w).
Proof.
  intros Hr. unfold front, begin_.
  erewrite run_bind by by eapply run_assert_nonempty.
  apply run_next_node. exact (ring_begin _ _ _ Hr).
Qed.

Lemma back_ring NDEBUG w s l x :
  ring w s (l ++ [x]) → back NDEBUG (Some s) w = Some (Some x, w).
Proof.
  intros Hr. unfold back, end_, iter_prev.
  erewrite run_bind by (eapply run_assert_nonempty; [exact Hr|by destruct l]).
  erewrite run_bind by done.
  erewrite run_prev_node by by eapply ring_back.
  by rewrite lst_snoc.
Qed.

Lemma ring_stderr w s l e :
  ring w s l → ring (World (prev_ w) (next_ w) (is_linked_ w) e) s l.
Proof. apply ring_frame; [by split|done]. Qed.

Lemma find_split_ring w s l budget c max_cnt :
  ring w s l → c + budget = max_cnt → c ≤ length l →
  find_split budget (Some s) (iter_at s (drop c l)) c max_cnt w
    = Some ((iter_at s (drop (min max_cnt (length l)) l),
             min max_cnt (length l)), w).
Proof.
  intros Hr. revert c. induction budget as [|budget IH]; intros c Hb Hc.
  - simpl. replace (min max_cnt (length l)) with c by lia. done.
  - simpl. unfold end_. erewrite run_bind by done.
    rewrite (bool_decide_eq_true_2 (c < max_cnt)) by lia.
    rewrite andb_true_r.
    destruct (decide (c = length l)) as [->|Hlt].
    + rewrite drop_all. unfold iter_at at 1. simpl.
      rewrite bool_decide_eq_false_2 by (intros H; by apply H).
      replace (min max_cnt (length l)) with (length l) by lia.
      by rewrite drop_all.
    + assert (c < length l) as Hlt' by lia.
      destruct (lookup_lt_is_Some_2 l c Hlt') as [y Hy].
      pose proof (take_drop_middle l c y Hy) as Hl.
      rewrite (drop_S l y c Hy).
      assert (y ≠ s) as Hys.
      { eapply ring_elem_ne_sentinel; [exact Hr|]. by eapply list_elem_of_lookup_2. }
      unfold iter_at at 1. simpl.
      rewrite bool_decide_eq_true_2 by congruence.
      unfold iter_next.
      erewrite run_bind.
      2:{ apply run_next_node. eapply (ring_next_at w s (take c l) y).
          by rewrite Hl. }
      apply (IH (S c)); lia.
Qed.

Lemma ring_other w w' s l (touched : list addr) :
  ring w s l →
  (∀ y, y ∈ s :: l → y ∉ touched) →
  (∀ y, y ∉ touched → same_links w w' y) →
  (∀ y, y ∉ touched → is_linked_ w' !! y = is_linked_ w !! y) →
  ring w' s l.
Proof.
  intros Hr Hd Hs Hf. eapply ring_frame; [| |exact Hr]; intros y Hy; auto.
Qed.

Lemma link_keeps_others lists w w' s l x :
  all_rings lists w → ring w s l → hook w x false →
  is_linked_ w' = <[x := true]> (is_linked_ w) →
  (∀ y, y ∉ x :: s :: l → same_links w w' y) →
  ∀ s2, s2 ∈ lists → s2 ≠ s → ∃ l2, ring w' s2 l2.
Proof.
  intros Hall Hr Hh Hf Hs s2 Hin Hne.
  destruct (Hall s2 Hin) as [l2 Hr2]. exists l2.
  pose proof (ring_disjoint _ _ _ _ _ Hr2 Hr Hne) as Hd.
  pose proof (hook_not_in_ring _ _ _ _ Hr2 Hh) as Hx.
  apply (ring_other w w' s2 l2 (x :: s :: l)); [done| |done|].
  - intros y Hy [->|Hy']%elem_of_cons; [done|by apply (Hd y)].
  - intros y Hy. rewrite Hf. rewrite lookup_insert_ne; [done|].
    intros ->. apply Hy. mem.
Qed.

Lemma unlink_keeps_others lists w w' s la x lb :
  all_rings lists w → ring w s (la ++ x :: lb) →
  is_linked_ w' = <[x := false]> (is_linked_ w) →
  (∀ y, y ∉ s :: la ++ lb → same_links w w' y) →
  ∀ s2, s2 ∈ lists → s2 ≠ s → ∃ l2, ring w' s2 l2.
Proof.
  intros Hall Hr Hf Hs s2 Hin Hne.
  destruct (Hall s2 Hin) as [l2 Hr2]. exists l2.
  pose proof (ring_disjoint _ _ _ _ _ Hr2 Hr Hne) as Hd.
  apply (ring_other w w' s2 l2 (s :: la ++ x :: lb)); [done|done| |].
  - intros y Hy. apply Hs. intros Hy'. apply Hy. mem.
  - intros y Hy. rewrite Hf. rewrite lookup_insert_ne; [done|].
    intros ->. apply Hy. mem.
Qed.

Lemma erase_unlink NDEBUG w s la x lb :
  ring w s (la ++ x :: lb) →
  erase NDEBUG (Some s) (Some x) w
    = (unlink NDEBUG (Some x) ;;; ret (Some (hd s lb))) w.
Proof.
  intros Hr. unfold erase.
  erewrite run_bind
    by (apply run_assert_not_end; eapply ring_elem_ne_sentinel; [exact Hr|mem]).
  by erewrite run_bind by (apply run_next_node; by eapply ring_next_at).
Qed.

(** After [erase] at an element its flag is clear. *)
Lemma erase_at_element NDEBUG w s la x lb :
  ring w s (la ++ x :: lb) →
  ∃ w' it, erase NDEBUG (Some s) (Some x) w = Some (it, w') ∧
           is_linked (Some x) w' = Some (false, w').
Proof.
  intros Hr.
  destruct (unlink_ring NDEBUG w s la x lb Hr) as (w' & Hrun & Hr' & Hf & _ & _).
  exists w', (Some (hd s lb)). split.
  - rewrite (erase_unlink NDEBUG w s la x lb Hr).
    by erewrite run_bind by exact Hrun.
  - apply run_is_linked. rewrite Hf. by rewrite lookup_insert_eq.
Qed.

(** [splice] between two different containers, with what it leaves alone. *)
Lemma splice_ring w sA la lb sB lB :
  ring w sA (la ++ lb) → ring w sB lB → sA ≠ sB →
  ∃ w', splice (Some sA) (iter_at sA lb) (Some sB) w = Some (tt, w') ∧
        ring w' sA (la ++ lB ++ lb) ∧
        ring w' sB [] ∧
        (lB = [] → w' = w) ∧
        is_linked_ w' = is_linked_ w ∧
        (∀ y, y ∉ (sB :: lB) ++ (sA :: la ++ lb) → same_links w w' y).
Proof.
  intros HrA HrB Hne. destruct lB as [|first r].
  - exists w. split; [|done].
    unfold splice. by erewrite run_bind by by eapply run_empty.
  - assert (ring w sB ((first :: r) ++ [])) as HrB0 by by rewrite app_nil_r.
    destruct (transfer_ring w sB first r [] sA la lb HrB0 HrA)
      as (w' & Hrun & HrB' & HrA' & Hf & _ & Hs); [done|].
    exists w'. split; [|split; [done|split; [done|split; [done|split; [done|]]]]].
    + unfold splice, begin_, end_, splice_range.
      erewrite run_bind by by eapply run_empty.
      rewrite bool_decide_eq_false_2 by done.
      rewrite bool_decide_eq_false_2 by congruence.
      erewrite run_bind by (apply run_next_node; exact (ring_begin _ _ _ HrB)).
      erewrite run_bind by done.
      exact Hrun.
    + intros y Hy. apply Hs. by rewrite app_nil_r.
Qed.

Lemma splice_self w s l pos :
  ring w s l → splice (Some s) pos (Some s) w = Some (tt, w).
Proof.
  intros Hr. unfold splice. erewrite run_bind by by eapply run_empty.
  destruct (bool_decide (l = [])); [done|].
  by rewrite bool_decide_eq_true_2.
Qed.

Lemma step_preserves NDEBUG lists w o :
  all_rings lists w → valid_call lists w o →
  ∃ w', run_op NDEBUG o w = Some (tt, w') ∧ all_rings lists w'.
Proof.
  intros Hall Hv. destruct o as [s x|s x|s pos x|s pos|s|s|s pos other]; simpl in Hv.
  - destruct Hv as [Hin Hh]. destruct (Hall s Hin) as [l Hr].
    assert (ring w s (l ++ [])) as Hr0 by by rewrite app_nil_r.
    destruct (insert_before_ring NDEBUG w s l [] x Hr0 Hh)
      as (w' & Hrun & Hr' & Hf & _ & Hs).
    rewrite app_nil_r in Hs.
    exists w'. split; [exact Hrun|]. intros s2 Hin2.
    destruct (decide (s2 = s)) as [->|Hne]; [by eauto|].
    by eapply (link_keeps_others lists w w' s l x).
  - destruct Hv as [Hin Hh]. destruct (Hall s Hin) as [l Hr].
    destruct (insert_after_ring NDEBUG w s l x Hr Hh)
      as (w' & Hrun & Hr' & Hf & _ & Hs).
    exists w'. split; [exact Hrun|]. intros s2 Hin2.
    destruct (decide (s2 = s)) as [->|Hne]; [by eauto|].
    by eapply (link_keeps_others lists w w' s l x).
  - destruct Hv as (Hin & (la & lb & Hr & ->) & Hh).
    destruct (insert_before_ring NDEBUG w s la lb x Hr Hh)
      as (w' & Hrun & Hr' & Hf & _ & Hs).
    assert (insert NDEBUG (Some s) (iter_at s lb) (Some x) w = Some (Some x, w'))
      as Hins by (unfold insert; by erewrite run_bind by exact Hrun).
    exists w'. split.
    + unfold run_op. by erewrite run_bind by exact Hins.
    + intros s2 Hin2.
      destruct (decide (s2 = s)) as [->|Hne]; [by eauto|].
      by eapply (link_keeps_others lists w w' s (la ++ lb) x).
  - destruct Hv as (Hin & (la & lb & Hr & ->) & Hne).
    destruct lb as [|x lb]; [done|]. unfold iter_at; simpl.
    destruct (unlink_ring NDEBUG w s la x lb Hr) as (w' & Hrun & Hr' & Hf & _ & Hs).
    exists w'. split.
    + unfold run_op. erewrite run_bind; [reflexivity|].
      erewrite erase_unlink by exact Hr. by erewrite run_bind by exact Hrun.
    + intros s2 Hin2.
      destruct (decide (s2 = s)) as [->|Hne2]; [by eauto|].
      by eapply (unlink_keeps_others lists w w' s la x lb).
  - destruct Hv as [Hin He]. destruct (Hall s Hin) as [l Hr].
    rewrite (run_empty w s l Hr) in He.
    destruct l as [|x l]; [done|].
    destruct (unlink_ring NDEBUG w s [] x l Hr) as (w' & Hrun & Hr' & Hf & _ & Hs).
    exists w'. split.
    + unfold run_op. by erewrite pop_front_unlink by exact Hr.
    + intros s2 Hin2.
      destruct (decide (s2 = s)) as [->|Hne2]; [by eauto|].
      by eapply (unlink_keeps_others lists w w' s [] x l).
  - destruct Hv as [Hin He]. destruct (Hall s Hin) as [l Hr].
    rewrite (run_empty w s l Hr) in He.
    destruct (lst_nil_or_snoc s l) as [->|[l' Hl]]; [done|].
    rewrite Hl in Hr.
    destruct (unlink_ring NDEBUG w s l' _ [] Hr) as (w' & Hrun & Hr' & Hf & _ & Hs).
    exists w'. split.
    + unfold run_op. by erewrite pop_back_unlink by exact Hr.
    + intros s2 Hin2.
      destruct (decide (s2 = s)) as [->|Hne2]; [by eauto|].
      by eapply (unlink_keeps_others lists w w' s l' _ []).
  - destruct Hv as (Hin & Hino & (la & lb & Hr & ->)).
    destruct (decide (s = other)) as [<-|Hne].
    { exists w. split; [by eapply splice_self|done]. }
    destruct (Hall other Hino) as [lB HrB].
    destruct (splice_ring w s la lb other lB Hr HrB Hne)
      as (w' & Hrun & HrA' & HrB' & _ & Hf & Hs).
    exists w'. split; [exact Hrun|]. intros s2 Hin2.
    destruct (decide (s2 = s)) as [->|Hne1]; [by eauto|].
    destruct (decide (s2 = other)) as [->|Hne2]; [by eauto|].
    destruct (Hall s2 Hin2) as [l2 Hr2]. exists l2.
    pose proof (ring_disjoint _ _ _ _ _ Hr2 Hr Hne1) as Hd1.
    pose proof (ring_disjoint _ _ _ _ _ Hr2 HrB Hne2) as Hd2.
    apply (ring_other w w' s2 l2 ((other :: lB) ++ (s :: la ++ lb))); [done| |done|].
    + intros y Hy [Hy'|Hy']%elem_of_app; [by apply (Hd2 y)|by apply (Hd1 y)].
    + intros y _. by rewrite Hf.
Qed.

Lemma reachable_all_rings NDEBUG lists w :
  reachable NDEBUG lists w → all_rings lists w.
Proof.
  induction 1 as [w Hinit|w o w' _ IH Hv Hrun].
  - intros s Hs. exists []. by apply Hinit.
  - destruct (step_preserves NDEBUG lists w o IH Hv) as (w2 & Hrun2 & Hall).
    rewrite Hrun in Hrun2. by injection Hrun2 as ->.
Qed.

Lemma session_reachable : reachable false [0; 10] (session_state 9).
Proof.
  apply (reach_step _ _ (session_state 8) (OpInsert 10 (Some 10) 5)).
  apply (reach_step _ _ (session_state 7) (OpPopBack 0)).
  apply (reach_step _ _ (session_state 6) (OpPopFront 0)).
  apply (reach_step _ _ (session_state 5) (OpErase 0 (Some 4))).
  apply (reach_step _ _ (session_state 4) (OpSplice 0 (Some 2) 10)).
  apply (reach_step _ _ (session_state 3) (OpInsert 10 (Some 4) 3)).
  apply (reach_step _ _ (session_state 2) (OpPushBack 10 4)).
  apply (reach_step _ _ (session_state 1) (OpPushFront 0 1)).
  apply (reach_step _ _ (session_state 0) (OpPushBack 0 2)).
  - apply reach_init. intros s [->|[->|[]%elem_of_nil]%elem_of_cons]%elem_of_cons;
      by_evaluation.
  - split; [repeat constructor|by_evaluation].
  - vm_compute. reflexivity.
  - split; [repeat constructor|by_evaluation].
  - vm_compute. reflexivity.
  - split; [repeat constructor|by_evaluation].
  - vm_compute. reflexivity.
  - split; [repeat constructor|split; [|by_evaluation]].
    exists [], [4]. split; [by_evaluation|reflexivity].
  - vm_compute. reflexivity.
  - split; [repeat constructor|split; [repeat constructor|]].
    exists [1], [2]. split; [by_evaluation|reflexivity].
  - vm_compute. reflexivity.
  - split; [repeat constructor|split; [|done]].
    exists [1; 3], [4; 2]. split; [by_evaluation|reflexivity].
  - vm_compute. reflexivity.
  - split; [repeat constructor|vm_compute; reflexivity].
  - vm_compute. reflexivity.
  - split; [repeat constructor|vm_compute; reflexivity].
  - vm_compute. reflexivity.
  - split; [repeat constructor|split; [|by_evaluation]].
    exists [], []. split; [by_evaluation|reflexivity].
  - vm_compute. reflexivity.
Qed.

(** ** The properties of the specification *)

(** C1: [A.splice(pos, B)] for two different containers moves the whole of
    [B], in order, to just before [pos] in [A]: afterwards [A] holds
    [la ++ lB ++ lb] and [B] is empty; when [B] is empty the memory is
    unchanged; and a splice of a container into itself changes nothing. *)
Theorem splice_spec w sA la lb sB lB :
  ring w sA (la ++ lb) → ring w sB lB → sA ≠ sB →
  (∃ w', splice (Some sA) (iter_at sA lb) (Some sB) w = Some (tt, w') ∧
         ring w' sA (la ++ lB ++ lb) ∧
         ring w' sB [] ∧
         (lB = [] → w' = w)) ∧
  splice (Some sA) (iter_at sA lb) (Some sA) w = Some (tt, w).
Proof.
  intros HrA HrB Hne. split.
  - destruct (splice_ring w sA la lb sB lB HrA HrB Hne)
      as (w' & Hrun & HrA' & HrB' & Hnil & _).
    by exists w'.
  - by eapply splice_self.
Qed.

Lemma splice_spec_witness :
  (∃ w', splice (Some 0) (iter_at 0 [2; 3]) (Some 10) demo = Some (tt, w') ∧
         ring w' 0 ([1] ++ [11; 12] ++ [2; 3]) ∧
         ring w' 10 [] ∧
         ([11; 12] = [] → w' = demo)) ∧
  splice (Some 0) (iter_at 0 [2; 3]) (Some 0) demo = Some (tt, demo).
Proof.
  apply (splice_spec demo 0 [1] [2; 3] 10 [11; 12]).
  - by_evaluation.
  - by_evaluation.
  - lia.
Defined.

(** C2, as the code has it: [extract_front(out, n)] from a list of length
    [L] into a container [out] other than the source returns [min n L],
    appends the first [min n L] elements, in order, to the end of [out], and
    leaves the other elements, in order, in the source; with [n = 0] or an
    empty source it returns [0] and changes nothing. *)
Theorem extract_front_spec w s l sO lO n :
  ring w s l → ring w sO lO → s ≠ sO →
  ∃ w', extract_front (Some s) (Some sO) n w = Some (min n (length l), w') ∧
        ring w' sO (lO ++ take n l) ∧
        ring w' s (drop n l) ∧
        length (take n l) = min n (length l) ∧
        length (drop n l) = length l - min n (length l) ∧
        (n = 0 ∨ l = [] → min n (length l) = 0 ∧ w' = w).
Proof.
  intros Hr HrO Hne.
  pose proof (find_split_ring w s l n 0 n Hr eq_refl) as Hfs.
  rewrite drop_0 in Hfs. specialize (Hfs ltac:(lia)).
  set (k := min n (length l)) in *.
  assert (take n l = take k l) as Htake.
  { unfold k. destruct (decide (n ≤ length l)).
    - by replace (min n (length l)) with n by lia.
    - replace (min n (length l)) with (length l) by lia.
      rewrite firstn_all. apply take_ge. lia. }
  assert (drop n l = drop k l) as Hdrop.
  { unfold k. destruct (decide (n ≤ length l)).
    - by replace (min n (length l)) with n by lia.
    - replace (min n (length l)) with (length l) by lia.
      rewrite drop_all. apply drop_ge. lia. }
  assert (length (take n l) = k) as Hlt by (rewrite length_take; lia).
  assert (length (drop n l) = length l - k) as Hld by (rewrite length_drop; lia).
  destruct (decide (k = 0)) as [Hk|Hk].
  - exists w. assert (take n l = [] ∧ drop n l = l) as [Ht Hd].
    { rewrite Htake, Hdrop, Hk. by rewrite drop_0. }
    rewrite Ht, Hd, app_nil_r.
    split; [|split; [done|split; [done|split; [simpl; lia|split; [lia|done]]]]].
    unfold extract_front, begin_.
    erewrite run_bind by (apply run_next_node; exact (ring_begin _ _ _ Hr)).
    erewrite run_bind by exact Hfs. simpl.
    rewrite bool_decide_eq_false_2 by lia.
    by erewrite run_bind by done.
  - destruct (take k l) as [|first r] eqn:Hrun.
    { rewrite Htake in Hlt. simpl in Hlt. lia. }
    assert (l = (first :: r) ++ drop k l) as Hl.
    { rewrite <- Hrun. by rewrite take_drop. }
    assert (ring w s ((first :: r) ++ drop k l)) as Hr' by by rewrite <- Hl.
    assert (ring w sO (lO ++ [])) as HrO' by by rewrite app_nil_r.
    destruct (transfer_ring w s first r (drop k l) sO lO [] Hr' HrO' Hne)
      as (w' & Hrun' & Hrs & Hro & _).
    rewrite app_nil_r in Hro.
    exists w'. rewrite Htake, Hdrop.
    split; [|split; [done|split; [done|split; [|split]]]].
    + unfold extract_front, begin_.
      erewrite run_bind by (apply run_next_node; exact (ring_begin _ _ _ Hr)).
      erewrite run_bind by exact Hfs. simpl.
      rewrite bool_decide_eq_true_2 by lia.
      erewrite run_bind; [reflexivity|].
      unfold end_, splice_range.
      erewrite run_bind by done.
      erewrite run_bind by (apply run_next_node; exact (ring_begin _ _ _ Hr)).
      replace (hd s l) with first by (rewrite Hl; done).
      exact Hrun'.
    + by rewrite <- Htake.
    + by rewrite <- Hdrop.
    + intros [->| ->]; simpl in *; unfold k in Hk; simpl in Hk; lia.
Qed.

Lemma extract_front_spec_witness :
  ∃ w', extract_front (Some 0) (Some 10) 2 demo = Some (min 2 (length [1; 2; 3]), w') ∧
        ring w' 10 ([11; 12] ++ take 2 [1; 2; 3]) ∧
        ring w' 0 (drop 2 [1; 2; 3]) ∧
        length (take 2 [1; 2; 3]) = min 2 (length [1; 2; 3]) ∧
        length (drop 2 [1; 2; 3]) = length [1; 2; 3] - min 2 (length [1; 2; 3]) ∧
        (2 = 0 ∨ [1; 2; 3] = [] → min 2 (length [1; 2; 3]) = 0 ∧ w' = demo).
Proof.
  apply (extract_front_spec demo 0 [1; 2; 3] 10 [11; 12] 2).
  - by_evaluation.
  - by_evaluation.
  - lia.
Defined.

(** C2 as stated fails when [out] is the source itself, which
    [extract_front] does not guard against (unlike [splice]): on the list
    [1; 2; 3], [extract_front(list, 2)] returns [2] and leaves the rotated
    list [3; 1; 2], not the one remaining element [3]. *)
Lemma extract_front_into_itself_counterexample :
  ring demo 0 [1; 2; 3] ∧
  (∃ w', extract_front (Some 0) (Some 0) 2 demo = Some (2, w') ∧
         forward 4 (Some 0) w' = Some ([3; 1; 2], w')) ∧
  ¬ ∃ w', extract_front (Some 0) (Some 0) 2 demo
            = Some (min 2 (length [1; 2; 3]), w') ∧
          ring w' 0 ([1; 2; 3] ++ take 2 [1; 2; 3]) ∧
          ring w' 0 (drop 2 [1; 2; 3]).
Proof.
  assert (extract_front (Some 0) (Some 0) 2 demo
          = Some (2, exec (extract_front (Some 0) (Some 0) 2) demo)) as Hrun
    by (vm_compute; reflexivity).
  split; [by_evaluation|]. split.
  - eexists. split; [exact Hrun|]. vm_compute. reflexivity.
  - intros (w' & Hrun' & _ & Hr).
    change (min 2 (length [1; 2; 3])) with 2 in Hrun'.
    assert (¬ ring (exec (extract_front (Some 0) (Some 0) 2) demo) 0 [3]) as Hn
      by by_evaluation.
    apply Hn.
    replace (exec (extract_front (Some 0) (Some 0) 2) demo) with w'
      by congruence.
    exact Hr.
Qed.

(** C3: [erase(pos)] at an element [x] of the list (so [pos != end()])
    succeeds, leaves the list with exactly [x] taken out, clears [x]'s
    [is_linked()] and no other flag, and returns the iterator to the element
    that followed [x], which is [end()] (the sentinel) when [x] was last. *)
Theorem erase_unlinks_and_returns_next NDEBUG w s la x lb :
  ring w s (la ++ x :: lb) →
  ∃ w', erase NDEBUG (Some s) (Some x) w
          = Some (match lb with [] => Some s | n :: _ => Some n end, w') ∧
        ring w' s (la ++ lb) ∧
        is_linked (Some x) w' = Some (false, w') ∧
        (∀ y, y ≠ x → is_linked_ w' !! y = is_linked_ w !! y).
Proof.
  intros Hr.
  destruct (unlink_ring NDEBUG w s la x lb Hr) as (w' & Hrun & Hr' & Hf & _ & _).
  exists w'. split; [|split; [done|split]].
  - rewrite (erase_unlink NDEBUG w s la x lb Hr).
    erewrite run_bind by exact Hrun. by destruct lb.
  - apply run_is_linked. rewrite Hf. by rewrite lookup_insert_eq.
  - intros y Hy. rewrite Hf. by rewrite lookup_insert_ne.
Qed.

Lemma erase_unlinks_and_returns_next_witness :
  ∃ w', erase false (Some 0) (Some 2) demo = Some (Some 3, w') ∧
        ring w' 0 ([1] ++ [3]) ∧
        is_linked (Some 2) w' = Some (false, w') ∧
        (∀ y, y ≠ 2 → is_linked_ w' !! y = is_linked_ demo !! y).
Proof.
  apply (erase_unlinks_and_returns_next false demo 0 [1] 2 [3]).
  by_evaluation.
Defined.

(** C4: in every memory reached from empty containers by finitely many
    valid [push_back], [push_front], [insert], [erase], [pop_front],
    [pop_back] and [splice] calls, every container holds a sequence [l] such
    that the sentinel and every element satisfy [prev.next == self] and
    [next.prev == self], the forward traversal from [begin()] to [end()]
    visits [l], and the backward traversal from [end()] to [begin()] visits
    the same elements in the opposite order. *)
Theorem ring_invariant NDEBUG lists w :
  reachable NDEBUG lists w →
  ∀ s, s ∈ lists →
    ∃ l, (∀ a, a ∈ s :: l → consistent w a) ∧
         forward (S (length l)) (Some s) w = Some (l, w) ∧
         backward (S (length l)) (Some s) w = Some (rev l, w).
Proof.
  intros Hreach s Hs.
  destruct (reachable_all_rings NDEBUG lists w Hreach s Hs) as [l Hr].
  exists l. split; [|split].
  - intros a Ha. by eapply ring_consistent.
  - apply forward_ring; [done|lia].
  - apply backward_ring; [done|lia].
Qed.

Lemma ring_invariant_witness :
  (∃ l, (∀ a, a ∈ 0 :: l → consistent (session_state 9) a) ∧
        forward (S (length l)) (Some 0) (session_state 9)
          = Some (l, session_state 9) ∧
        backward (S (length l)) (Some 0) (session_state 9)
          = Some (rev l, session_state 9)) ∧
  (∃ l, (∀ a, a ∈ 10 :: l → consistent (session_state 9) a) ∧
        forward (S (length l)) (Some 10) (session_state 9)
          = Some (l, session_state 9) ∧
        backward (S (length l)) (Some 10) (session_state 9)
          = Some (rev l, session_state 9)).
Proof.
  split.
  - apply (ring_invariant false [0; 10] (session_state 9) session_reachable).
    apply list_elem_of_here.
  - apply (ring_invariant false [0; 10] (session_state 9) session_reachable).
    apply list_elem_of_further, list_elem_of_here.
Defined.

Example session_traversals :
  (let! f := forward 9 (Some 0) in
   let! b := backward 9 (Some 0) in
   let! o := forward 9 (Some 10) in ret (f, b, o)) (session_state 9)
  = Some (([3], [3], [5]), session_state 9).
Proof. vm_compute. reflexivity. Qed.

(** C5: [is_linked()] is false on a freshly constructed node; it is true
    right after [push_back], [push_front] or [insert] of an unlinked node;
    it is true for every element of a list; and it is false right after
    [unlink()], [erase], [pop_front()] or [pop_back()] has removed the
    node. *)
Theorem is_linked_lifecycle NDEBUG w s l x a :
  ring w s l → hook w x false →
  (∃ w', (construct_node a ;;; is_linked (Some a)) w = Some (false, w')) ∧
  (∃ w', (push_back NDEBUG (Some s) (Some x) ;;; is_linked (Some x)) w
           = Some (true, w')) ∧
  (∃ w', (push_front NDEBUG (Some s) (Some x) ;;; is_linked (Some x)) w
           = Some (true, w')) ∧
  (∀ la lb, l = la ++ lb →
     ∃ w', (insert NDEBUG (Some s) (iter_at s lb) (Some x) ;;; is_linked (Some x)) w
             = Some (true, w')) ∧
  (∀ y, y ∈ l → is_linked (Some y) w = Some (true, w)) ∧
  (∀ la y lb, l = la ++ y :: lb →
     (∃ w', (unlink NDEBUG (Some y) ;;; is_linked (Some y)) w = Some (false, w')) ∧
     (∃ w', (erase NDEBUG (Some s) (Some y) ;;; is_linked (Some y)) w
              = Some (false, w')) ∧
     (la = [] →
      ∃ w', (pop_front NDEBUG (Some s) ;;; is_linked (Some y)) w = Some (false, w')) ∧
     (lb = [] →
      ∃ w', (pop_back NDEBUG (Some s) ;;; is_linked (Some y)) w = Some (false, w'))).
Proof.
  intros Hr Hh. split; [|split; [|split; [|split; [|split]]]].
  - eexists. unfold construct_node, construct_base.
    erewrite run_bind by (erewrite run_bind by done; done).
    apply run_is_linked. simpl. by rewrite lookup_insert_eq.
  - assert (ring w s (l ++ [])) as Hr0 by by rewrite app_nil_r.
    destruct (insert_before_ring NDEBUG w s l [] x Hr0 Hh) as (w' & Hrun & _ & Hf & _).
    exists w'. unfold push_back. erewrite run_bind by exact Hrun.
    apply run_is_linked. rewrite Hf. by rewrite lookup_insert_eq.
  - destruct (insert_after_ring NDEBUG w s l x Hr Hh) as (w' & Hrun & _ & Hf & _).
    exists w'. unfold push_front. erewrite run_bind by exact Hrun.
    apply run_is_linked. rewrite Hf. by rewrite lookup_insert_eq.
  - intros la lb ->.
    destruct (insert_before_ring NDEBUG w s la lb x Hr Hh) as (w' & Hrun & _ & Hf & _).
    assert (insert NDEBUG (Some s) (iter_at s lb) (Some x) w = Some (Some x, w'))
      as Hins by (unfold insert; by erewrite run_bind by exact Hrun).
    exists w'. erewrite run_bind by exact Hins.
    apply run_is_linked. rewrite Hf. by rewrite lookup_insert_eq.
  - intros y Hy. apply run_is_linked. by eapply ring_elem_linked.
  - intros la y lb ->.
    destruct (unlink_ring NDEBUG w s la y lb Hr) as (w' & Hrun & _ & Hf & _).
    assert (is_linked (Some y) w' = Some (false, w')) as Hy.
    { apply run_is_linked. rewrite Hf. by rewrite lookup_insert_eq. }
    split; [|split; [|split]].
    + exists w'. by erewrite run_bind by exact Hrun.
    + destruct (erase_at_element NDEBUG w s la y lb Hr)
        as (w2 & it & Hrun2 & Hy2).
      exists w2. by erewrite run_bind by exact Hrun2.
    + intros ->. exists w'.
      erewrite run_bind; [exact Hy|].
      by erewrite pop_front_unlink by exact Hr.
    + intros ->. exists w'.
      erewrite run_bind; [exact Hy|].
      by erewrite pop_back_unlink by exact Hr.
Qed.

Lemma is_linked_lifecycle_witness :
  (∃ w', (construct_node 5 ;;; is_linked (Some 5)) demo = Some (false, w')) ∧
  (∃ w', (push_back false (Some 0) (Some 4) ;;; is_linked (Some 4)) demo
           = Some (true, w')) ∧
  is_linked (Some 2) demo = Some (true, demo) ∧
  (∃ w', (unlink false (Some 2) ;;; is_linked (Some 2)) demo = Some (false, w')).
Proof.
  destruct (is_linked_lifecycle false demo 0 [1; 2; 3] 4 5)
    as (H1 & H2 & _ & _ & H5 & H6).
  - by_evaluation.
  - by_evaluation.
  - split; [exact H1|]. split; [exact H2|]. split.
    + apply H5. apply list_elem_of_further, list_elem_of_here.
    + apply (H6 [1] 2 [3] eq_refl).
Defined.

(** C6, as the code has it: destroying an element that is still linked runs
    [unlink()] before the storage goes away, the remaining list is the former
    sequence without the element (the forward and the backward traversal
    succeed on it and agree), and the warning is written to [stderr] exactly
    when the build does not define [NDEBUG]. *)
Theorem destroy_linked_auto_unlinks NDEBUG w s la x lb :
  ring w s (la ++ x :: lb) →
  ∃ w', destroy NDEBUG x w = Some (tt, w') ∧
        stderr w' = stderr w ++ (if NDEBUG then [] else [warning]) ∧
        ring w' s (la ++ lb) ∧
        (prev_ w' !! x = None ∧ next_ w' !! x = None ∧ is_linked_ w' !! x = None) ∧
        forward (S (length (la ++ lb))) (Some s) w' = Some (la ++ lb, w') ∧
        backward (S (length (la ++ lb))) (Some s) w' = Some (rev (la ++ lb), w').
Proof.
  intros Hr.
  assert (Hxl : is_linked_ w !! x = Some true) by (eapply ring_elem_linked; [done|mem]).
  set (w1 := World (prev_ w) (next_ w) (is_linked_ w)
                   (stderr w ++ (if NDEBUG then [] else [warning]))).
  assert (ring w1 s (la ++ x :: lb)) as Hr1 by by apply ring_stderr.
  destruct (unlink_ring NDEBUG w1 s la x lb Hr1) as (w2 & Hrun & Hr2 & Hf & He & _).
  assert (x ∉ s :: la ++ lb) as Hx.
  { destruct Hr as (_ & Hnd & _). by apply NoDup_remove_mid in Hnd as [_ ?]. }
  set (w3 := World (delete x (prev_ w2)) (delete x (next_ w2))
                   (delete x (is_linked_ w2)) (stderr w2)).
  assert (ring w3 s (la ++ lb)) as Hr3.
  { eapply ring_frame; [| |exact Hr2].
    - intros y Hy. split; simpl; apply lookup_delete_ne; intros ->; done.
    - intros y Hy. simpl. apply lookup_delete_ne. intros ->; done. }
  exists w3. split; [|split; [|split; [|split; [|split]]]].
  - unfold destroy, destructor.
    erewrite run_bind; [reflexivity|].
    erewrite run_bind by by apply run_is_linked.
    destruct NDEBUG.
    + erewrite run_bind by done.
      replace w with w1; [exact Hrun|].
      unfold w1. destruct w; simpl. by rewrite app_nil_r.
    + erewrite run_bind by done. exact Hrun.
  - simpl. by rewrite He.
  - done.
  - simpl. by rewrite !lookup_delete_eq.
  - by apply forward_ring; [|lia].
  - by apply backward_ring; [|lia].
Qed.

Lemma destroy_linked_auto_unlinks_witness :
  ∃ w', destroy false 2 demo = Some (tt, w') ∧
        stderr w' = stderr demo ++ [warning] ∧
        ring w' 0 ([1] ++ [3]) ∧
        (prev_ w' !! 2 = None ∧ next_ w' !! 2 = None ∧ is_linked_ w' !! 2 = None) ∧
        forward 3 (Some 0) w' = Some ([1] ++ [3], w') ∧
        backward 3 (Some 0) w' = Some (rev ([1] ++ [3]), w').
Proof.
  apply (destroy_linked_auto_unlinks false demo 0 [1] 2 [3]).
  by_evaluation.
Defined.

(** C6 as stated fails in a build that defines [NDEBUG]: the element [2] of
    the list [1; 2; 3] is destroyed while linked and nothing is written to
    [stderr]. *)
Lemma destroy_warning_counterexample :
  ring demo 0 [1; 2; 3] ∧
  ¬ ∃ w', destroy true 2 demo = Some (tt, w') ∧ warning ∈ stderr w'.
Proof.
  split; [by_evaluation|].
  intros (w' & Hrun & Hin).
  assert (match destroy true 2 demo with
          | Some (_, w2) => stderr w2
          | None => []
          end = []) as Hs by (vm_compute; reflexivity).
  rewrite Hrun in Hs. rewrite Hs in Hin. by apply elem_of_nil in Hin.
Qed.

(** C7: on an empty list [try_pop_front()] and [try_pop_back()] return
    [nullptr] and change nothing; on a non-empty list they unlink the first,
    respectively the last, element and return its address, and that
    element's [is_linked()] is then false. *)
Theorem try_pop_spec NDEBUG w s l :
  ring w s l →
  (l = [] →
     try_pop_front NDEBUG (Some s) w = Some (None, w) ∧
     try_pop_back NDEBUG (Some s) w = Some (None, w)) ∧
  (∀ x l', l = x :: l' →
     ∃ w', try_pop_front NDEBUG (Some s) w = Some (Some x, w') ∧
           ring w' s l' ∧ is_linked (Some x) w' = Some (false, w')) ∧
  (∀ l' x, l = l' ++ [x] →
     ∃ w', try_pop_back NDEBUG (Some s) w = Some (Some x, w') ∧
           ring w' s l' ∧ is_linked (Some x) w' = Some (false, w')).
Proof.
  intros Hr. split; [|split].
  - intros ->. unfold try_pop_front, try_pop_back.
    by erewrite !run_bind by by eapply run_empty.
  - intros x l' ->.
    destruct (unlink_ring NDEBUG w s [] x l' Hr) as (w' & Hrun & Hr' & Hf & _).
    exists w'. split; [|split; [done|]].
    + unfold try_pop_front.
      erewrite run_bind by by eapply run_empty.
      rewrite bool_decide_eq_false_2 by done.
      erewrite run_bind by by eapply front_ring.
      erewrite run_bind
        by (erewrite pop_front_unlink by exact Hr; exact Hrun).
      done.
    + apply run_is_linked. rewrite Hf. by rewrite lookup_insert_eq.
  - intros l' x ->.
    destruct (unlink_ring NDEBUG w s l' x [] Hr) as (w' & Hrun & Hr' & Hf & _).
    rewrite app_nil_r in Hr'.
    exists w'. split; [|split; [done|]].
    + unfold try_pop_back.
      erewrite run_bind by by eapply run_empty.
      rewrite bool_decide_eq_false_2 by by destruct l'.
      erewrite run_bind by by eapply back_ring.
      erewrite run_bind
        by (erewrite pop_back_unlink by exact Hr; exact Hrun).
      done.
    + apply run_is_linked. rewrite Hf. by rewrite lookup_insert_eq.
Qed.

Lemma try_pop_spec_witness :
  (try_pop_front false (Some 0) demo_empty = Some (None, demo_empty) ∧
   try_pop_back false (Some 0) demo_empty = Some (None, demo_empty)) ∧
  (∃ w', try_pop_front false (Some 0) demo = Some (Some 1, w') ∧
         ring w' 0 [2; 3] ∧ is_linked (Some 1) w' = Some (false, w')) ∧
  (∃ w', try_pop_back false (Some 0) demo = Some (Some 3, w') ∧
         ring w' 0 [1; 2] ∧ is_linked (Some 3) w' = Some (false, w')).
Proof.
  split; [|split].
  - apply (try_pop_spec false demo_empty 0 []); [|reflexivity].
    by_evaluation.
  - apply (try_pop_spec false demo 0 [1; 2; 3]); [|reflexivity].
    by_evaluation.
  - apply (try_pop_spec false demo 0 [1; 2; 3]) with (l' := [1; 2]); [|reflexivity].
    by_evaluation.
Defined.

(** C8: [insert(end(), x)] and [push_back(x)] leave the same memory behind,
    in which [x] is the last element; and [insert(pos, x)] at any position
    links [x] just before [pos] and returns the iterator whose [current_] is
    [x]. *)
Theorem insert_end_is_push_back NDEBUG w s la lb x :
  ring w s (la ++ lb) → hook w x false →
  (∃ w', (let! e := end_ (Some s) in insert NDEBUG (Some s) e (Some x)) w
           = Some (Some x, w') ∧
         push_back NDEBUG (Some s) (Some x) w = Some (tt, w') ∧
         ring w' s ((la ++ lb) ++ [x])) ∧
  (∃ w', insert NDEBUG (Some s) (iter_at s lb) (Some x) w = Some (Some x, w') ∧
         ring w' s (la ++ x :: lb) ∧
         is_linked (Some x) w' = Some (true, w')).
Proof.
  intros Hr Hh. split.
  - assert (ring w s ((la ++ lb) ++ [])) as Hr0 by by rewrite app_nil_r.
    destruct (insert_before_ring NDEBUG w s (la ++ lb) [] x Hr0 Hh)
      as (w' & Hrun & Hr' & _).
    exists w'. unfold iter_at in Hrun; simpl in Hrun.
    split; [|split; [done|done]].
    unfold end_, insert. erewrite run_bind by done.
    by erewrite run_bind by exact Hrun.
  - destruct (insert_before_ring NDEBUG w s la lb x Hr Hh)
      as (w' & Hrun & Hr' & Hf & _).
    exists w'. split; [|split; [done|]].
    + unfold insert. by erewrite run_bind by exact Hrun.
    + apply run_is_linked. rewrite Hf. by rewrite lookup_insert_eq.
Qed.

Lemma insert_end_is_push_back_witness :
  (∃ w', (let! e := end_ (Some 0) in insert false (Some 0) e (Some 4)) demo
           = Some (Some 4, w') ∧
         push_back false (Some 0) (Some 4) demo = Some (tt, w') ∧
         ring w' 0 (([1] ++ [2; 3]) ++ [4])) ∧
  (∃ w', insert false (Some 0) (iter_at 0 [2; 3]) (Some 4) demo = Some (Some 4, w') ∧
         ring w' 0 ([1] ++ 4 :: [2; 3]) ∧
         is_linked (Some 4) w' = Some (true, w')).
Proof.
  apply (insert_end_is_push_back false demo 0 [1] [2; 3] 4).
  - by_evaluation.
  - by_evaluation.
Defined.

(** C9: [x.unlink()] on an element of a list succeeds and changes only [x]:
    the list is afterwards its former sequence without [x], [x]'s flag is
    cleared, every other flag is as before, and every other list of the same
    memory still holds the same sequence. *)
Theorem unlink_changes_only_self NDEBUG w s la x lb :
  ring w s (la ++ x :: lb) →
  ∃ w', unlink NDEBUG (Some x) w = Some (tt, w') ∧
        ring w' s (la ++ lb) ∧
        is_linked_ w' !! x = Some false ∧
        (∀ y, y ≠ x → is_linked_ w' !! y = is_linked_ w !! y) ∧
        (∀ s2 l2, ring w s2 l2 → s2 ≠ s → ring w' s2 l2).
Proof.
  intros Hr.
  destruct (unlink_ring NDEBUG w s la x lb Hr) as (w' & Hrun & Hr' & Hf & _ & Hs).
  exists w'. split; [done|split; [done|split; [|split]]].
  - rewrite Hf. by rewrite lookup_insert_eq.
  - intros y Hy. rewrite Hf. by rewrite lookup_insert_ne.
  - intros s2 l2 Hr2 Hne.
    pose proof (ring_disjoint _ _ _ _ _ Hr2 Hr Hne) as Hd.
    eapply ring_frame; [| |exact Hr2].
    + intros y Hy. apply Hs. intros Hin. apply (Hd y Hy). mem.
    + intros y Hy. rewrite Hf. rewrite lookup_insert_ne; [done|].
      intros ->. apply (Hd y Hy). mem.
Qed.

Lemma unlink_changes_only_self_witness :
  ∃ w', unlink false (Some 2) demo = Some (tt, w') ∧
        ring w' 0 ([1] ++ [3]) ∧
        is_linked_ w' !! 2 = Some false ∧
        (∀ y, y ≠ 2 → is_linked_ w' !! y = is_linked_ demo !! y) ∧
        (∀ s2 l2, ring demo s2 l2 → s2 ≠ 0 → ring w' s2 l2).
Proof.
  apply (unlink_changes_only_self false demo 0 [1] 2 [3]).
  by_evaluation.
Defined.

(** C10: [erase_range(p, p)] never enters its loop: whatever [p] and the
    memory are, it returns [p] and leaves the memory (every sequence, every
    flag) as it was. *)
Theorem erase_range_empty_range NDEBUG fuel this p w :
  erase_range NDEBUG (S fuel) this p p w = Some (p, w).
Proof.
  unfold erase_range. simpl.
  by rewrite bool_decide_eq_false_2 by (intros H; by apply H).
Qed.

(** ** Further properties of the operations *)

Lemma size_loop_ring w s la lb cnt fuel :
  ring w s (la ++ lb) → length lb < fuel →
  size_loop fuel (Some s) (iter_at s lb) cnt w = Some (cnt + length lb, w).
Proof.
  revert la cnt fuel. induction lb as [|b lb IH]; intros la cnt fuel Hr Hf.
  - destruct fuel as [|fuel]; [simpl in Hf; lia|]. simpl.
    rewrite bool_decide_eq_false_2 by (intros H; by apply H).
    unfold ret. do 2 f_equal. lia.
  - destruct fuel as [|fuel]; [simpl in Hf; lia|]. simpl.
    assert (b ≠ s) as Hne by (eapply ring_elem_ne_sentinel; [exact Hr|mem]).
    rewrite bool_decide_eq_true_2 by (unfold iter_at; simpl; congruence).
    unfold iter_next.
    erewrite run_bind by (apply run_next_node; by eapply ring_next_at).
    rewrite (IH (la ++ [b])); [|by rewrite <- app_assoc|simpl in Hf; lia].
    do 2 f_equal. lia.
Qed.

(** X1: [size()] walks the list once and returns the number of its elements,
    which is the number of elements the forward traversal visits; it writes
    nothing. *)
Theorem size_counts_elements w s l fuel :
  ring w s l → length l < fuel →
  size fuel (Some s) w = Some (length l, w) ∧
  forward fuel (Some s) w = Some (l, w).
Proof.
  intros Hr Hf. split; [|by apply forward_ring].
  unfold size, begin_.
  erewrite run_bind by (apply run_next_node; by eapply ring_begin).
  apply (size_loop_ring w s [] l 0 fuel); done.
Qed.

Lemma size_counts_elements_witness :
  size 4 (Some 0) demo = Some (length [1; 2; 3], demo) ∧
  forward 4 (Some 0) demo = Some ([1; 2; 3], demo).
Proof.
  apply (size_counts_elements demo 0 [1; 2; 3] 4).
  - by_evaluation.
  - simpl. lia.
Defined.

(** What an operation on one container leaves alone keeps every other
    container of the memory as it is. *)
Lemma others_kept w w' s l :
  ring w s l →
  (∀ y, y ∉ s :: l → same_links w w' y) →
  (∀ y, y ∉ s :: l → is_linked_ w' !! y = is_linked_ w !! y) →
  ∀ s2 l2, ring w s2 l2 → s2 ≠ s → ring w' s2 l2.
Proof.
  intros Hr Hs Hf s2 l2 Hr2 Hne.
  pose proof (ring_disjoint _ _ _ _ _ Hr2 Hr Hne) as Hd.
  by apply (ring_other w w' s2 l2 (s :: l)).
Qed.

Lemma same_links_trans w1 w2 w3 y :
  same_links w1 w2 y → same_links w2 w3 y → same_links w1 w3 y.
Proof. intros [H1 H2] [H3 H4]. split; congruence. Qed.

Lemma erase_range_loop_ring NDEBUG w s la mid lb fuel :
  ring w s (la ++ mid ++ lb) → length mid < fuel →
  ∃ w', erase_range_loop NDEBUG fuel (Some s) (iter_at s (mid ++ lb))
          (iter_at s lb) w = Some (tt, w') ∧
        ring w' s (la ++ lb) ∧
        (∀ x, x ∈ mid → is_linked_ w' !! x = Some false) ∧
        (∀ y, y ∉ mid → is_linked_ w' !! y = is_linked_ w !! y) ∧
        stderr w' = stderr w ∧
        (∀ y, y ∉ s :: la ++ mid ++ lb → same_links w w' y).
Proof.
  revert w fuel. induction mid as [|m mid IH]; intros w fuel Hr Hf.
  - exists w. destruct fuel as [|fuel]; [simpl in Hf; lia|]. simpl.
    rewrite bool_decide_eq_false_2 by (intros H; by apply H).
    split; [done|]. split; [done|]. split; [by intros x []%elem_of_nil|].
    done.
  - destruct fuel as [|fuel]; [simpl in Hf; lia|].
    change ((m :: mid) ++ lb) with (m :: mid ++ lb) in *.
    assert (m ≠ hd s lb) as Hne.
    { destruct Hr as (_ & Hnd & _). apply NoDup_remove_mid in Hnd as [_ Hm].
      intros ->. apply Hm. destruct lb; simpl; mem. }
    destruct (unlink_ring NDEBUG w s la m (mid ++ lb) Hr)
      as (w1 & Hrun & Hr1 & Hf1 & He1 & Hs1).
    destruct (IH w1 fuel Hr1) as (w' & Hloop & Hr' & Hoff & Hkeep & He & Hs);
      [simpl in Hf; lia|].
    assert (m ∉ mid) as Hm.
    { destruct Hr as (_ & Hnd & _). apply NoDup_remove_mid in Hnd as [_ Hm].
      intros Hin. apply Hm. mem. }
    exists w'. split; [|split; [done|split; [|split; [|split]]]].
    + simpl. rewrite bool_decide_eq_true_2 by (unfold iter_at; simpl; congruence).
      erewrite run_bind; [exact Hloop|].
      unfold iter_at. simpl. rewrite (erase_unlink NDEBUG w s la m (mid ++ lb) Hr).
      by erewrite run_bind by exact Hrun.
    + intros x [->|Hx]%elem_of_cons; [|by apply Hoff].
      rewrite Hkeep by done. rewrite Hf1. by rewrite lookup_insert_eq.
    + intros y Hy. rewrite Hkeep by (intros ?; apply Hy; mem).
      rewrite Hf1. rewrite lookup_insert_ne; [done|]. intros ->. apply Hy. mem.
    + congruence.
    + intros y Hy. eapply same_links_trans.
      * apply Hs1. intros Hin. apply Hy. mem.
      * apply Hs. intros Hin. apply Hy. mem.
Qed.

(** X2: [erase_range(first, last)] unlinks exactly the elements of
    [[first, last)], one [erase] after the other, and returns [last]: the
    list keeps the elements before and after the range in their order, the
    erased elements are unlinked, no other flag changes and every other
    container keeps its sequence. *)
Theorem erase_range_spec NDEBUG w s la mid lb fuel :
  ring w s (la ++ mid ++ lb) → length mid < fuel →
  ∃ w', erase_range NDEBUG fuel (Some s) (iter_at s (mid ++ lb)) (iter_at s lb) w
          = Some (iter_at s lb, w') ∧
        ring w' s (la ++ lb) ∧
        (∀ x, x ∈ mid → is_linked_ w' !! x = Some false) ∧
        (∀ y, y ∉ mid → is_linked_ w' !! y = is_linked_ w !! y) ∧
        (∀ s2 l2, ring w s2 l2 → s2 ≠ s → ring w' s2 l2).
Proof.
  intros Hr Hf.
  destruct (erase_range_loop_ring NDEBUG w s la mid lb fuel Hr Hf)
    as (w' & Hloop & Hr' & Hoff & Hkeep & _ & Hs).
  exists w'. split; [|split; [done|split; [done|split; [done|]]]].
  - unfold erase_range. by erewrite run_bind by exact Hloop.
  - apply (others_kept w w' s (la ++ mid ++ lb)); [done|done|].
    intros y Hy. apply Hkeep. intros Hin. apply Hy. mem.
Qed.

Lemma erase_range_spec_witness :
  ∃ w', erase_range false 3 (Some 0) (iter_at 0 ([2; 3] ++ [])) (iter_at 0 []) demo
          = Some (iter_at 0 [], w') ∧
        ring w' 0 ([1] ++ []) ∧
        (∀ x, x ∈ [2; 3] → is_linked_ w' !! x = Some false) ∧
        (∀ y, y ∉ [2; 3] → is_linked_ w' !! y = is_linked_ demo !! y) ∧
        (∀ s2 l2, ring demo s2 l2 → s2 ≠ 0 → ring w' s2 l2).
Proof.
  apply (erase_range_spec false demo 0 [1] [2; 3] [] 3).
  - by_evaluation.
  - simpl. lia.
Defined.

Lemma clear_ring NDEBUG w s l fuel :
  ring w s l → length l < fuel →
  ∃ w', clear NDEBUG fuel (Some s) w = Some (tt, w') ∧
        ring w' s [] ∧
        (∀ x, x ∈ l → is_linked_ w' !! x = Some false) ∧
        (∀ y, y ∉ l → is_linked_ w' !! y = is_linked_ w !! y) ∧
        stderr w' = stderr w ∧
        (∀ y, y ∉ s :: l → same_links w w' y).
Proof.
  revert w fuel. induction l as [|x l IH]; intros w fuel Hr Hf.
  - exists w. destruct fuel as [|fuel]; [simpl in Hf; lia|]. simpl.
    erewrite run_bind by by eapply run_empty.
    split; [done|]. split; [done|]. split; [by intros x []%elem_of_nil|done].
  - destruct fuel as [|fuel]; [simpl in Hf; lia|].
    destruct (unlink_ring NDEBUG w s [] x l Hr)
      as (w1 & Hrun & Hr1 & Hf1 & He1 & Hs1).
    destruct (IH w1 fuel Hr1) as (w' & Hloop & Hr' & Hoff & Hkeep & He & Hs);
      [simpl in Hf; lia|].
    assert (x ∉ l) as Hx.
    { destruct Hr as (_ & Hnd & _).
      apply (NoDup_remove_mid s x [] l) in Hnd as [_ Hm].
      intros Hin. apply Hm. mem. }
    exists w'. split; [|split; [done|split; [|split; [|split]]]].
    + simpl. erewrite run_bind by by eapply run_empty.
      rewrite bool_decide_eq_false_2 by done. simpl.
      erewrite run_bind; [exact Hloop|].
      by erewrite pop_front_unlink by exact Hr.
    + intros y [->|Hy]%elem_of_cons; [|by apply Hoff].
      rewrite Hkeep by done. rewrite Hf1. by rewrite lookup_insert_eq.
    + intros y Hy. rewrite Hkeep by (intros ?; apply Hy; mem).
      rewrite Hf1. rewrite lookup_insert_ne; [done|]. intros ->. apply Hy. mem.
    + congruence.
    + intros y Hy. eapply same_links_trans.
      * apply Hs1. intros Hin. apply Hy. mem.
      * apply Hs. intros Hin. apply Hy. mem.
Qed.

(** ** No operation creates or destroys an object *)

Lemma same_objects_refl w : same_objects w w.
Proof. by split. Qed.

Lemma same_objects_trans w1 w2 w3 :
  same_objects w1 w2 → same_objects w2 w3 → same_objects w1 w3.
Proof. intros (H1 & H2 & H3) (H4 & H5 & H6). repeat split; congruence. Qed.

Lemma same_objects_live w w' y :
  same_objects w w' →
  (is_Some (prev_ w' !! y) ↔ is_Some (prev_ w !! y)) ∧
  (is_Some (next_ w' !! y) ↔ is_Some (next_ w !! y)) ∧
  (is_Some (is_linked_ w' !! y) ↔ is_Some (is_linked_ w !! y)).
Proof.
  intros (H1 & H2 & H3). rewrite <- !elem_of_dom. by rewrite H1, H2, H3.
Qed.

Lemma keeps_ret {A} (a : A) : keeps_objects (ret a).
Proof. intros w b w' [= _ <-]. apply same_objects_refl. Qed.

Lemma keeps_fail {A} : keeps_objects (@fail A).
Proof. by intros w b w' [=]. Qed.

Lemma keeps_bind {A B} (m : M A) (k : A → M B) :
  keeps_objects m → (∀ a, keeps_objects (k a)) → keeps_objects (bind m k).
Proof.
  intros Hm Hk w b w' Hrun. unfold bind in Hrun.
  destruct (m w) as [[a w1]|] eqn:Hmw; [|done].
  eapply same_objects_trans; [by eapply Hm|by eapply Hk].
Qed.

Lemma dom_insert_live {V} (m : gmap nat V) a v :
  is_Some (m !! a) → dom (<[a := v]> m) = dom m.
Proof.
  intros Ha. rewrite dom_insert_L. apply elem_of_dom in Ha. set_solver.
Qed.

Lemma keeps_next_node p : keeps_objects (next_node p).
Proof.
  intros w a w' Hrun. unfold next_node in Hrun.
  destruct p as [x|]; [|done]. destruct (next_ w !! x); [|done].
  injection Hrun as _ <-. apply same_objects_refl.
Qed.

Lemma keeps_prev_node p : keeps_objects (prev_node p).
Proof.
  intros w a w' Hrun. unfold prev_node in Hrun.
  destruct p as [x|]; [|done]. destruct (prev_ w !! x); [|done].
  injection Hrun as _ <-. apply same_objects_refl.
Qed.

Lemma keeps_is_linked p : keeps_objects (is_linked p).
Proof.
  intros w a w' Hrun. unfold is_linked in Hrun.
  destruct p as [x|]; [|done]. destruct (is_linked_ w !! x); [|done].
  injection Hrun as _ <-. apply same_objects_refl.
Qed.

Lemma keeps_set_next p q : keeps_objects (set_next p q).
Proof.
  intros w a w' Hrun. unfold set_next in Hrun.
  destruct p as [x|]; [|done]. destruct (next_ w !! x) eqn:Hx; [|done].
  injection Hrun as _ <-. split; [done|split; [|done]]. simpl.
  apply dom_insert_live. by rewrite Hx.
Qed.

Lemma keeps_set_prev p q : keeps_objects (set_prev p q).
Proof.
  intros w a w' Hrun. unfold set_prev in Hrun.
  destruct p as [x|]; [|done]. destruct (prev_ w !! x) eqn:Hx; [|done].
  injection Hrun as _ <-. split; [|done]. simpl.
  apply dom_insert_live. by rewrite Hx.
Qed.

Lemma keeps_store_is_linked p b : keeps_objects (store_is_linked p b).
Proof.
  intros w a w' Hrun. unfold store_is_linked in Hrun.
  destruct p as [x|]; [|done]. destruct (is_linked_ w !! x) eqn:Hx; [|done].
  injection Hrun as _ <-. split; [done|split; [done|]]. simpl.
  apply dom_insert_live. by rewrite Hx.
Qed.

Lemma keeps_assert NDEBUG (c : M bool) :
  keeps_objects c → keeps_objects (assert_ NDEBUG c).
Proof.
  intros Hc. unfold assert_. destruct NDEBUG; [apply keeps_ret|].
  apply keeps_bind; [done|]. intros []; [apply keeps_ret|apply keeps_fail].
Qed.

(** Break a computation down to the primitives. *)
Ltac keeps :=
  repeat first
    [ apply keeps_ret | apply keeps_fail
    | apply keeps_next_node | apply keeps_prev_node | apply keeps_is_linked
    | apply keeps_set_next | apply keeps_set_prev | apply keeps_store_is_linked
    | apply keeps_assert
    | apply keeps_bind; [|intros ?]
    | match goal with
      | |- keeps_objects (if ?b then _ else _) => destruct b
      | |- keeps_objects (match ?p with Some _ => _ | None => _ end) => destruct p
      end
    | assumption ].

Lemma keeps_unlink NDEBUG p : keeps_objects (unlink NDEBUG p).
Proof. unfold unlink, unlink_base. keeps. Qed.

Lemma keeps_link_between x p n : keeps_objects (link_between x p n).
Proof. unfold link_between, link_between_base, set_linked. keeps. Qed.

Lemma keeps_transfer_range pos first last :
  keeps_objects (transfer_range pos first last).
Proof. unfold transfer_range. keeps. Qed.

Lemma keeps_empty this : keeps_objects (empty this).
Proof. unfold empty. keeps. Qed.

Lemma keeps_insert_before NDEBUG pos x : keeps_objects (insert_before NDEBUG pos x).
Proof. unfold insert_before. pose proof keeps_link_between. keeps. Qed.

Lemma keeps_insert_after NDEBUG pos x : keeps_objects (insert_after NDEBUG pos x).
Proof. unfold insert_after. pose proof keeps_link_between. keeps. Qed.

Lemma keeps_pop_front NDEBUG this : keeps_objects (pop_front NDEBUG this).
Proof.
  unfold pop_front. pose proof keeps_empty. pose proof (keeps_unlink NDEBUG). keeps.
Qed.

Lemma keeps_pop_back NDEBUG this : keeps_objects (pop_back NDEBUG this).
Proof.
  unfold pop_back. pose proof keeps_empty. pose proof (keeps_unlink NDEBUG). keeps.
Qed.

Lemma keeps_erase NDEBUG this pos : keeps_objects (erase NDEBUG this pos).
Proof. unfold erase, end_. pose proof (keeps_unlink NDEBUG). keeps. Qed.

Lemma keeps_erase_range NDEBUG fuel this first last :
  keeps_objects (erase_range NDEBUG fuel this first last).
Proof.
  unfold erase_range. apply keeps_bind; [|intros; apply keeps_ret].
  revert first. induction fuel as [|fuel IH]; intros first; simpl; [apply keeps_fail|].
  pose proof (keeps_erase NDEBUG). keeps. apply IH.
Qed.

Lemma keeps_clear NDEBUG fuel this : keeps_objects (clear NDEBUG fuel this).
Proof.
  induction fuel as [|fuel IH]; simpl; [apply keeps_fail|].
  pose proof keeps_empty. pose proof (keeps_pop_front NDEBUG). keeps.
Qed.

Lemma keeps_splice this pos other : keeps_objects (splice this pos other).
Proof.
  unfold splice, splice_range, begin_, end_.
  pose proof keeps_empty. pose proof keeps_transfer_range. keeps.
Qed.

Lemma keeps_splice_cell this pos other element :
  keeps_objects (splice_cell this pos other element).
Proof.
  unfold splice_cell, splice_range, iter_next, end_.
  pose proof keeps_transfer_range. keeps.
Qed.

Lemma keeps_find_split budget this split count max_cnt :
  keeps_objects (find_split budget this split count max_cnt).
Proof.
  revert split count. induction budget as [|budget IH]; intros split count; simpl.
  - apply keeps_ret.
  - unfold end_, iter_next. keeps. apply IH.
Qed.

Lemma keeps_extract_front this out max_cnt :
  keeps_objects (extract_front this out max_cnt).
Proof.
  unfold extract_front, splice_range, begin_, end_.
  keeps. apply keeps_find_split.
Qed.

Lemma keeps_remove NDEBUG x : keeps_objects (remove NDEBUG x).
Proof. unfold remove. pose proof (keeps_unlink NDEBUG). keeps. Qed.

Lemma keeps_try_pop_front NDEBUG this : keeps_objects (try_pop_front NDEBUG this).
Proof.
  unfold try_pop_front, front, begin_.
  pose proof keeps_empty. pose proof (keeps_pop_front NDEBUG). keeps.
Qed.

Lemma keeps_try_pop_back NDEBUG this : keeps_objects (try_pop_back NDEBUG this).
Proof.
  unfold try_pop_back, back, end_, iter_prev.
  pose proof keeps_empty. pose proof (keeps_pop_back NDEBUG). keeps.
Qed.

(** X3: no operation of the container or of the hook creates or destroys an
    object: whenever one of them returns, exactly the link records and flags
    that were live before are live afterwards (only their values may have
    changed). *)
Theorem operations_keep_objects NDEBUG fuel this pos other first last x n :
  keeps_objects (push_back NDEBUG this x) ∧
  keeps_objects (push_front NDEBUG this x) ∧
  keeps_objects (insert NDEBUG this pos x) ∧
  keeps_objects (pop_front NDEBUG this) ∧
  keeps_objects (pop_back NDEBUG this) ∧
  keeps_objects (try_pop_front NDEBUG this) ∧
  keeps_objects (try_pop_back NDEBUG this) ∧
  keeps_objects (erase NDEBUG this pos) ∧
  keeps_objects (erase_range NDEBUG fuel this first last) ∧
  keeps_objects (clear NDEBUG fuel this) ∧
  keeps_objects (splice this pos other) ∧
  keeps_objects (splice_cell this pos other x) ∧
  keeps_objects (splice_range this pos other first last) ∧
  keeps_objects (extract_front this other n) ∧
  keeps_objects (unlink NDEBUG x) ∧
  keeps_objects (remove NDEBUG x).
Proof.
  repeat match goal with |- _ ∧ _ => split end.
  - apply keeps_insert_before.
  - apply keeps_insert_after.
  - unfold insert. apply keeps_bind; [apply keeps_insert_before|].
    intros; apply keeps_ret.
  - apply keeps_pop_front.
  - apply keeps_pop_back.
  - apply keeps_try_pop_front.
  - apply keeps_try_pop_back.
  - apply keeps_erase.
  - apply keeps_erase_range.
  - apply keeps_clear.
  - apply keeps_splice.
  - apply keeps_splice_cell.
  - apply keeps_transfer_range.
  - apply keeps_extract_front.
  - apply keeps_unlink.
  - apply keeps_remove.
Qed.

Lemma hook_kept w w' x b :
  same_objects w w' → is_linked_ w' !! x = Some b →
  is_Some (prev_ w !! x) → is_Some (next_ w !! x) → hook w' x b.
Proof.
  intros Hobj Hf Hp Hn. destruct (same_objects_live w w' x Hobj) as (H1 & H2 & _).
  split; [done|]. split; [by apply H1|by apply H2].
Qed.

(** X4: [clear()] pops the front until the list is empty: afterwards the
    container is empty, every former element is an unlinked, still live
    object, no other flag has changed and every other container keeps its
    sequence.  The container's destructor does the same before the sentinel
    goes away. *)
Theorem clear_unlinks_all NDEBUG w s l fuel :
  ring w s l → length l < fuel →
  (∃ w', clear NDEBUG fuel (Some s) w = Some (tt, w') ∧
         ring w' s [] ∧
         (∀ x, x ∈ l → hook w' x false) ∧
         (∀ y, y ∉ l → is_linked_ w' !! y = is_linked_ w !! y) ∧
         (∀ s2 l2, ring w s2 l2 → s2 ≠ s → ring w' s2 l2)) ∧
  (∃ w', destroy_list NDEBUG fuel s w = Some (tt, w') ∧
         (∀ x, x ∈ l → hook w' x false) ∧
         (∀ s2 l2, ring w s2 l2 → s2 ≠ s → ring w' s2 l2)).
Proof.
  intros Hr Hf.
  destruct (clear_ring NDEBUG w s l fuel Hr Hf)
    as (w' & Hrun & Hr' & Hoff & Hkeep & _ & Hs).
  assert (∀ x, x ∈ l → hook w' x false) as Hhooks.
  { intros x Hx.
    destruct (ring_is_Some w s l x Hr) as [Hp Hn]; [mem|].
    apply (hook_kept w w'); [by eapply keeps_clear|by apply Hoff|done|done]. }
  assert (∀ s2 l2, ring w s2 l2 → s2 ≠ s → ring w' s2 l2) as Hothers.
  { apply (others_kept w w' s l); [done|done|].
    intros y Hy. apply Hkeep. intros Hin. apply Hy. mem. }
  split; [by exists w'|].
  eexists. split; [|split].
  - unfold destroy_list. erewrite run_bind by exact Hrun. reflexivity.
  - intros x Hx. destruct (Hhooks x Hx) as (H1 & H2 & H3).
    assert (x ≠ s) by (eapply ring_elem_ne_sentinel; [exact Hr|done]).
    split; [|split]; simpl; by rewrite lookup_delete_ne.
  - intros s2 l2 Hr2 Hne.
    pose proof (ring_disjoint _ _ _ _ _ Hr2 Hr Hne) as Hd.
    eapply ring_frame; [| |exact (Hothers s2 l2 Hr2 Hne)].
    + intros y Hy. assert (y ≠ s) by (intros ->; apply (Hd s Hy); mem).
      split; simpl; by rewrite lookup_delete_ne.
    + intros y Hy. assert (y ≠ s) by (intros ->; apply (Hd s Hy); mem).
      simpl. by rewrite lookup_delete_ne.
Qed.

Lemma clear_unlinks_all_witness :
  (∃ w', clear false 4 (Some 0) demo = Some (tt, w') ∧
         ring w' 0 [] ∧
         (∀ x, x ∈ [1; 2; 3] → hook w' x false) ∧
         (∀ y, y ∉ [1; 2; 3] → is_linked_ w' !! y = is_linked_ demo !! y) ∧
         (∀ s2 l2, ring demo s2 l2 → s2 ≠ 0 → ring w' s2 l2)) ∧
  (∃ w', destroy_list false 4 0 demo = Some (tt, w') ∧
         (∀ x, x ∈ [1; 2; 3] → hook w' x false) ∧
         (∀ s2 l2, ring demo s2 l2 → s2 ≠ 0 → ring w' s2 l2)).
Proof.
  apply (clear_unlinks_all false demo 0 [1; 2; 3] 4).
  - by_evaluation.
  - simpl. lia.
Defined.

(** Moving any run of one ring to a position of another ring. *)
Lemma transfer_ring_mid w sS pre first r rest sD la lb :
  ring w sS (pre ++ (first :: r) ++ rest) → ring w sD (la ++ lb) → sS ≠ sD →
  ∃ w', transfer_range (iter_at sD lb) (Some first) (iter_at sS rest) w
          = Some (tt, w') ∧
        ring w' sS (pre ++ rest) ∧
        ring w' sD (la ++ (first :: r) ++ lb) ∧
        is_linked_ w' = is_linked_ w ∧
        stderr w' = stderr w ∧
        (∀ y, y ∉ (sS :: pre ++ (first :: r) ++ rest) ++ (sD :: la ++ lb) →
              same_links w w' y).
Proof.
  intros HrS HrD Hne.
  pose proof (ring_disjoint _ _ _ _ _ HrS HrD Hne) as Hdisj.
  assert (ring w sS ((pre ++ first :: r) ++ rest)) as HrS1
    by (by rewrite <- app_assoc).
  pose proof (ring_prev_at w sS (pre ++ first :: r) rest HrS1) as Hplast.
  rewrite lst_app, lst_cons in Hplast.
  pose proof (ring_prev_at w sS pre ((first :: r) ++ rest) HrS) as Hpfirst.
  simpl in Hpfirst.
  pose proof (ring_prev_at w sD la lb HrD) as Hppos.
  destruct (ring_is_Some w sS _ (lst sS pre) HrS) as [_ HnS].
  { pose proof (lst_elem sS pre). mem. }
  destruct (ring_is_Some w sD _ (lst sD la) HrD) as [_ HnP].
  { pose proof (lst_elem sD la). mem. }
  destruct (ring_is_Some w sS _ (lst first r) HrS) as [_ HnT].
  { pose proof (lst_elem first r). mem. }
  destruct HrS as (HcS & HndS & HfS & HallS).
  destruct HrD as (HcD & HndD & HfD & HallD).
  set (pos := hd sD lb) in *. set (last := hd sS rest) in *.
  set (d := tl (lb ++ [sD]) ++ la).
  set (rs := tl (rest ++ [sS]) ++ pre).
  assert (cyc w pos d) as HcD' by by apply (proj1 (cyc_at w sD la lb)).
  assert (last :: rs = rest ++ sS :: pre) as Hlrs.
  { unfold last, rs. rewrite app_comm_cons, at_cons. by rewrite <- app_assoc. }
  assert (cyc w first (r ++ last :: rs)) as HcS'.
  { rewrite Hlrs, app_assoc.
    apply (proj2 (cyc_rot w first sS (r ++ rest) pre)). exact HcS. }
  assert (lst last rs = lst sS pre) as Hbefore by apply lst_at.
  assert (lst pos d = lst sD la) as Hpprev by apply lst_at.
  assert (NoDup ((first :: r) ++ (last :: rs) ++ (pos :: d))) as Hnd.
  { rewrite Hlrs. unfold pos, d. rewrite perm_at.
    rewrite app_assoc. apply NoDup_app. split; [|split; [|done]].
    - rewrite (Permutation_app_comm rest (sS :: pre)).
      rewrite (Permutation_app_swap_app (first :: r) (sS :: pre) rest).
      exact HndS.
    - intros y Hy. apply Hdisj. mem. }
  destruct (cyc_transfer w first r last rs pos d HcS' HcD' Hnd) as [HcS2 HcD2].
  rewrite Hbefore, Hpprev in HcS2, HcD2.
  eexists. split; [|split; [|split; [|split; [|split]]]].
  - unfold iter_at. fold pos. fold last. by eapply run_transfer_range.
  - split; [|split; [|split]]; simpl.
    + apply (proj2 (cyc_at _ sS pre rest)). fold last. fold rs.
      eapply cyc_ext; [| |exact HcS2]; done.
    + change (NoDup ((sS :: pre) ++ rest)).
      change (NoDup ((sS :: pre) ++ (first :: r) ++ rest)) in HndS.
      rewrite (Permutation_app_swap_app (sS :: pre)) in HndS.
      by apply NoDup_app in HndS as (_ & _ & ?).
    + done.
    + rewrite !Forall_app in *. tauto.
  - split; [|split; [|split]]; simpl.
    + change (first :: r ++ lb) with ((first :: r) ++ lb).
      rewrite (app_assoc la). apply (proj2 (cyc_at _ sD _ lb)).
      fold pos. rewrite app_assoc. fold d.
      eapply cyc_ext; [| |exact HcD2]; done.
    + change (NoDup ((sS :: pre) ++ (first :: r) ++ rest)) in HndS.
      rewrite (Permutation_app_swap_app (sS :: pre)) in HndS.
      apply NoDup_app in HndS as (HndR & _ & _).
      change (NoDup ((sD :: la) ++ (first :: r) ++ lb)).
      rewrite (Permutation_app_swap_app (sD :: la) (first :: r) lb).
      apply NoDup_app. split; [done|]. split; [|done].
      intros y Hy Hy'. apply (Hdisj y); mem.
    + done.
    + change (first :: r ++ lb) with ((first :: r) ++ lb).
      rewrite !Forall_app in *. tauto.
  - done.
  - done.
  - intros y Hy. pose proof (lst_elem sD la) as Hl1.
    pose proof (lst_elem first r) as Hl2.
    pose proof (lst_elem sS pre) as Hl3.
    assert (Hpos : pos ∈ sD :: la ++ lb) by (unfold pos; destruct lb; simpl; mem).
    assert (Hlast : last ∈ sS :: rest) by (unfold last; destruct rest; simpl; mem).
    assert (y ≠ pos) by (intros ->; apply Hy; mem).
    assert (y ≠ last) by (intros ->; apply Hy; mem).
    assert (y ≠ first) by (intros ->; apply Hy; mem).
    assert (y ≠ lst sS pre) by (intros ->; apply Hy; mem).
    assert (y ≠ lst sD la) by (intros ->; apply Hy; mem).
    assert (y ≠ lst first r) by (intros ->; apply Hy; mem).
    split; simpl; by rewrite !lookup_insert_ne.
Qed.

Lemma two_rings_others_kept w w' sA lA sB lB :
  ring w sA lA → ring w sB lB →
  is_linked_ w' = is_linked_ w →
  (∀ y, y ∉ (sB :: lB) ++ (sA :: lA) → same_links w w' y) →
  ∀ s2 l2, ring w s2 l2 → s2 ≠ sA → s2 ≠ sB → ring w' s2 l2.
Proof.
  intros HrA HrB Hf Hs s2 l2 Hr2 Hne1 Hne2.
  pose proof (ring_disjoint _ _ _ _ _ Hr2 HrA Hne1) as Hd1.
  pose proof (ring_disjoint _ _ _ _ _ Hr2 HrB Hne2) as Hd2.
  apply (ring_other w w' s2 l2 ((sB :: lB) ++ (sA :: lA))); [done| |done|].
  - intros y Hy [Hy'|Hy']%elem_of_app; [by apply (Hd2 y)|by apply (Hd1 y)].
  - intros y _. by rewrite Hf.
Qed.

(** X5: [splice_range(pos, other, first, last)] between two different
    containers moves the non-empty run [[first, last)], in order, to just
    before [pos]: the destination holds the run at [pos], the source keeps
    the elements before and after the run, no [is_linked_] flag is written
    (the moved elements stay linked) and every third container keeps its
    sequence. *)
Theorem splice_range_spec w sA la lb sB pre first r rest :
  ring w sA (la ++ lb) → ring w sB (pre ++ (first :: r) ++ rest) → sA ≠ sB →
  ∃ w', splice_range (Some sA) (iter_at sA lb) (Some sB) (Some first)
          (iter_at sB rest) w = Some (tt, w') ∧
        ring w' sA (la ++ (first :: r) ++ lb) ∧
        ring w' sB (pre ++ rest) ∧
        is_linked_ w' = is_linked_ w ∧
        (∀ s2 l2, ring w s2 l2 → s2 ≠ sA → s2 ≠ sB → ring w' s2 l2).
Proof.
  intros HrA HrB Hne.
  destruct (transfer_ring_mid w sB pre first r rest sA la lb HrB HrA)
    as (w' & Hrun & HrB' & HrA' & Hf & _ & Hs); [done|].
  exists w'. split; [exact Hrun|]. split; [done|]. split; [done|]. split; [done|].
  by apply (two_rings_others_kept w w' sA (la ++ lb) sB (pre ++ (first :: r) ++ rest)).
Qed.

Lemma splice_range_spec_witness :
  ∃ w', splice_range (Some 10) (iter_at 10 [12]) (Some 0) (Some 2)
          (iter_at 0 []) demo = Some (tt, w') ∧
        ring w' 10 ([11] ++ (2 :: [3]) ++ [12]) ∧
        ring w' 0 ([1] ++ []) ∧
        is_linked_ w' = is_linked_ demo ∧
        (∀ s2 l2, ring demo s2 l2 → s2 ≠ 10 → s2 ≠ 0 → ring w' s2 l2).
Proof.
  apply (splice_range_spec demo 10 [11] [12] 0 [1] 2 [3] []).
  - by_evaluation.
  - by_evaluation.
  - lia.
Defined.

(** X6: [splice_cell(pos, other, element)] between two different containers
    moves exactly the one element to just before [pos] and writes no flag;
    given [other.end()] as the element it does nothing at all. *)
Theorem splice_cell_spec w sA la lb sB pre x rest :
  ring w sA (la ++ lb) → ring w sB (pre ++ x :: rest) → sA ≠ sB →
  (∃ w', splice_cell (Some sA) (iter_at sA lb) (Some sB) (Some x) w
           = Some (tt, w') ∧
         ring w' sA (la ++ x :: lb) ∧
         ring w' sB (pre ++ rest) ∧
         is_linked_ w' = is_linked_ w) ∧
  splice_cell (Some sA) (iter_at sA lb) (Some sB) (Some sB) w = Some (tt, w).
Proof.
  intros HrA HrB Hne. split.
  - destruct (transfer_ring_mid w sB pre x [] rest sA la lb HrB HrA)
      as (w' & Hrun & HrB' & HrA' & Hf & _ & _); [done|].
    exists w'. split; [|done].
    unfold splice_cell, end_, iter_next, splice_range.
    erewrite run_bind by done.
    assert (x ≠ sB) by (eapply ring_elem_ne_sentinel; [exact HrB|mem]).
    rewrite bool_decide_eq_false_2 by congruence.
    erewrite run_bind by (apply run_next_node; by eapply ring_next_at).
    exact Hrun.
  - unfold splice_cell, end_. erewrite run_bind by done.
    by rewrite bool_decide_eq_true_2.
Qed.

Lemma splice_cell_spec_witness :
  (∃ w', splice_cell (Some 0) (iter_at 0 [2; 3]) (Some 10) (Some 12) demo
           = Some (tt, w') ∧
         ring w' 0 ([1] ++ 12 :: [2; 3]) ∧
         ring w' 10 ([11] ++ []) ∧
         is_linked_ w' = is_linked_ demo) ∧
  splice_cell (Some 0) (iter_at 0 [2; 3]) (Some 10) (Some 10) demo = Some (tt, demo).
Proof.
  apply (splice_cell_spec demo 0 [1] [2; 3] 10 [11] 12 []).
  - by_evaluation.
  - by_evaluation.
  - lia.
Defined.

Lemma unlink_hook NDEBUG w s la x lb w' :
  ring w s (la ++ x :: lb) → unlink NDEBUG (Some x) w = Some (tt, w') →
  is_linked_ w' = <[x := false]> (is_linked_ w) → hook w' x false.
Proof.
  intros Hr Hrun Hf.
  destruct (ring_is_Some w s _ x Hr) as [Hp Hn]; [mem|].
  apply (hook_kept w w'); [by eapply keeps_unlink| |done|done].
  rewrite Hf. by rewrite lookup_insert_eq.
Qed.

Lemma remove_unlinked NDEBUG w x :
  hook w x false → remove NDEBUG (Some x) w = Some (tt, w).
Proof.
  intros [Hf _]. unfold remove. by erewrite run_bind by by apply run_is_linked.
Qed.

(** X7: the static [remove(element)] takes a linked element out of whatever
    list holds it, without being given the list, and leaves an unlinked
    element alone: it never asserts, and removing twice is removing once. *)
Theorem remove_spec NDEBUG w s la x lb :
  ring w s (la ++ x :: lb) →
  (∃ w', remove NDEBUG (Some x) w = Some (tt, w') ∧
         ring w' s (la ++ lb) ∧
         hook w' x false ∧
         remove NDEBUG (Some x) w' = Some (tt, w')) ∧
  (∀ y, hook w y false → remove NDEBUG (Some y) w = Some (tt, w)).
Proof.
  intros Hr. split; [|intros y Hy; by apply remove_unlinked].
  destruct (unlink_ring NDEBUG w s la x lb Hr) as (w' & Hrun & Hr' & Hf & _ & _).
  pose proof (unlink_hook NDEBUG w s la x lb w' Hr Hrun Hf) as Hh.
  exists w'. split; [|split; [done|split; [done|by apply remove_unlinked]]].
  unfold remove.
  erewrite run_bind
    by (apply run_is_linked; eapply ring_elem_linked; [exact Hr|mem]).
  exact Hrun.
Qed.

Lemma remove_spec_witness :
  (∃ w', remove false (Some 2) demo = Some (tt, w') ∧
         ring w' 0 ([1] ++ [3]) ∧
         hook w' 2 false ∧
         remove false (Some 2) w' = Some (tt, w')) ∧
  (∀ y, hook demo y false → remove false (Some y) demo = Some (tt, demo)).
Proof.
  apply (remove_spec false demo 0 [1] 2 [3]). by_evaluation.
Defined.

(** X8: the read-only accessors: [empty()] is true exactly for the empty
    list, and so is [begin() == end()]; on a non-empty list [front()] is the
    first and [back()] the last element; none of them writes anything. *)
Theorem accessors_spec NDEBUG w s l :
  ring w s l →
  empty (Some s) w = Some (bool_decide (l = []), w) ∧
  (let! b := begin_ (Some s) in
   let! e := end_ (Some s) in ret (bool_decide (b = e))) w
    = Some (bool_decide (l = []), w) ∧
  (∀ x l', l = x :: l' → front NDEBUG (Some s) w = Some (Some x, w)) ∧
  (∀ l' x, l = l' ++ [x] → back NDEBUG (Some s) w = Some (Some x, w)).
Proof.
  intros Hr. split; [by apply run_empty|]. split; [|split].
  - pose proof (run_empty w s l Hr) as He. unfold empty in He.
    unfold begin_, end_.
    erewrite run_bind by (apply run_next_node; by eapply ring_begin).
    erewrite run_bind by done.
    erewrite run_bind in He by (apply run_next_node; by eapply ring_begin).
    exact He.
  - intros x l' ->. by apply (front_ring NDEBUG w s x l').
  - intros l' x ->. by apply (back_ring NDEBUG w s l' x).
Qed.

Lemma accessors_spec_witness :
  empty (Some 0) demo = Some (bool_decide ([1; 2; 3] = []), demo) ∧
  (let! b := begin_ (Some 0) in
   let! e := end_ (Some 0) in ret (bool_decide (b = e))) demo
    = Some (bool_decide ([1; 2; 3] = []), demo) ∧
  (∀ x l', [1; 2; 3] = x :: l' → front false (Some 0) demo = Some (Some x, demo)) ∧
  (∀ l' x, [1; 2; 3] = l' ++ [x] → back false (Some 0) demo = Some (Some x, demo)).
Proof.
  apply (accessors_spec false demo 0 [1; 2; 3]). by_evaluation.
Defined.

Lemma assert_fails (c : M bool) w :
  c w = Some (false, w) → ∀ {A} (k : unit → M A), bind (assert_ false c) k w = None.
Proof. intros Hc A k. unfold assert_, bind. by rewrite Hc. Qed.

(** X9: in a build without [NDEBUG], linking an element whose flag is already
    set trips the assertion of [insert_before] / [insert_after]: [push_back],
    [push_front] and [insert] stop before any reference is written, whatever
    the container and the position. *)
Theorem double_link_aborts w this pos x :
  is_linked_ w !! x = Some true →
  push_back false this (Some x) w = None ∧
  push_front false this (Some x) w = None ∧
  insert false this pos (Some x) w = None.
Proof.
  intros Hx.
  assert ((let! b := is_linked (Some x) in ret (negb b)) w = Some (false, w)) as Hc
    by (by erewrite run_bind by by apply run_is_linked).
  split; [|split].
  - unfold push_back, insert_before. by apply assert_fails.
  - unfold push_front, insert_after. by apply assert_fails.
  - unfold insert, insert_before. unfold bind at 1.
    by rewrite (assert_fails _ w Hc).
Qed.

Lemma double_link_aborts_witness :
  push_back false (Some 10) (Some 2) demo = None ∧
  push_front false (Some 10) (Some 2) demo = None ∧
  insert false (Some 10) (Some 11) (Some 2) demo = None.
Proof.
  apply (double_link_aborts demo (Some 10) (Some 11) 2).
  vm_compute. reflexivity.
Defined.

(** X10: in a build without [NDEBUG], [front()] and [back()] on an empty
    list and [unlink()] of an element that is not linked stop at their
    assertion.  The build with [NDEBUG] has no such check: there [front()]
    and [back()] return the sentinel's address as if it were an element, and
    [unlink()] goes on to rewrite the neighbours that the stale references of
    the element name. *)
Theorem invalid_removal_aborts w s x :
  ring w s [] → hook w x false →
  (front false (Some s) w = None ∧ front true (Some s) w = Some (Some s, w)) ∧
  (back false (Some s) w = None ∧ back true (Some s) w = Some (Some s, w)) ∧
  unlink false (Some x) w = None ∧
  (∀ p n, prev_ w !! x = Some (Some p) → next_ w !! x = Some (Some n) →
          is_Some (next_ w !! p) → is_Some (prev_ w !! n) →
     ∃ w', unlink true (Some x) w = Some (tt, w') ∧
           next_ w' !! p = Some (Some n) ∧ prev_ w' !! n = Some (Some p)).
Proof.
  intros Hr [Hx _].
  assert ((let! e := empty (Some s) in ret (negb e)) w = Some (false, w)) as Hc
    by (by erewrite run_bind by exact (run_empty w s [] Hr)).
  split; [|split; [|split]].
  - split; [unfold front; by apply assert_fails|].
    unfold front, assert_, begin_. erewrite run_bind by done.
    apply run_next_node. exact (ring_begin w s [] Hr).
  - split; [unfold back; by apply assert_fails|].
    unfold back, assert_, end_, iter_prev. erewrite !run_bind by done.
    apply run_prev_node. exact (ring_back w s [] Hr).
  - unfold unlink. apply assert_fails. by apply run_is_linked.
  - intros p n Hp Hn Hnp Hpn. eexists. split; [|split].
    + unfold unlink, assert_. erewrite run_bind by done.
      erewrite run_bind by by eapply run_unlink_base.
      apply run_store_is_linked. simpl. eauto.
    + simpl. by rewrite lookup_insert_eq.
    + simpl. by rewrite lookup_insert_eq.
Qed.

Lemma invalid_removal_aborts_witness :
  (front false (Some 20) (exec (unlink false (Some 2) ;;; construct_list 20) demo)
     = None ∧
   front true (Some 20) (exec (unlink false (Some 2) ;;; construct_list 20) demo)
     = Some (Some 20, exec (unlink false (Some 2) ;;; construct_list 20) demo)) ∧
  unlink false (Some 2) (exec (unlink false (Some 2) ;;; construct_list 20) demo)
    = None ∧
  (∃ w', unlink true (Some 2)
           (exec (unlink false (Some 2) ;;; construct_list 20) demo) = Some (tt, w') ∧
         next_ w' !! 1 = Some (Some 3) ∧ prev_ w' !! 3 = Some (Some 1)).
Proof.
  destruct (invalid_removal_aborts
              (exec (unlink false (Some 2) ;;; construct_list 20) demo) 20 2)
    as (Hf & _ & Hu & Hn).
  - by_evaluation.
  - by_evaluation.
  - split; [exact Hf|]. split; [exact Hu|].
    apply (Hn 1 3); vm_compute; eauto.
Defined.

(** X11: pushing an unlinked element and popping at the same end gives the
    list back: after [push_back(x); pop_back()] and after
    [push_front(x); pop_front()] the container holds its former sequence and
    [x] is again an unlinked, live element; after [push_back(x); pop_front()]
    on a non-empty list the first element has left and [x] is last. *)
Theorem push_pop_round_trip NDEBUG w s l x :
  ring w s l → hook w x false →
  (∃ w', (push_back NDEBUG (Some s) (Some x) ;;; pop_back NDEBUG (Some s)) w
           = Some (tt, w') ∧ ring w' s l ∧ hook w' x false) ∧
  (∃ w', (push_front NDEBUG (Some s) (Some x) ;;; pop_front NDEBUG (Some s)) w
           = Some (tt, w') ∧ ring w' s l ∧ hook w' x false) ∧
  (∀ y l', l = y :: l' →
     ∃ w', (push_back NDEBUG (Some s) (Some x) ;;; pop_front NDEBUG (Some s)) w
             = Some (tt, w') ∧ ring w' s (l' ++ [x]) ∧ hook w' y false).
Proof.
  intros Hr Hh.
  assert (ring w s (l ++ [])) as Hr0 by by rewrite app_nil_r.
  destruct (insert_before_ring NDEBUG w s l [] x Hr0 Hh) as (w1 & Hrun1 & Hr1 & _).
  destruct (insert_after_ring NDEBUG w s l x Hr Hh) as (w2 & Hrun2 & Hr2 & _).
  split; [|split].
  - destruct (unlink_ring NDEBUG w1 s l x [] Hr1) as (w' & Hrun & Hr' & Hf & _).
    rewrite app_nil_r in Hr'.
    exists w'. split; [|split; [done|by eapply unlink_hook]].
    unfold push_back. erewrite run_bind by exact Hrun1.
    by erewrite pop_back_unlink by exact Hr1.
  - destruct (unlink_ring NDEBUG w2 s [] x l Hr2) as (w' & Hrun & Hr' & Hf & _).
    exists w'. split; [|split; [done|by eapply (unlink_hook NDEBUG w2 s [] x l)]].
    unfold push_front. erewrite run_bind by exact Hrun2.
    by erewrite pop_front_unlink by exact Hr2.
  - intros y l' ->. simpl in Hr1.
    destruct (unlink_ring NDEBUG w1 s [] y (l' ++ [x]) Hr1)
      as (w' & Hrun & Hr' & Hf & _).
    exists w'. split; [|split; [done|by eapply (unlink_hook NDEBUG w1 s [] y)]].
    unfold push_back. erewrite run_bind by exact Hrun1.
    by erewrite pop_front_unlink by exact Hr1.
Qed.

Lemma push_pop_round_trip_witness :
  (∃ w', (push_back false (Some 0) (Some 4) ;;; pop_back false (Some 0)) demo
           = Some (tt, w') ∧ ring w' 0 [1; 2; 3] ∧ hook w' 4 false) ∧
  (∃ w', (push_front false (Some 0) (Some 4) ;;; pop_front false (Some 0)) demo
           = Some (tt, w') ∧ ring w' 0 [1; 2; 3] ∧ hook w' 4 false) ∧
  (∀ y l', [1; 2; 3] = y :: l' →
     ∃ w', (push_back false (Some 0) (Some 4) ;;; pop_front false (Some 0)) demo
             = Some (tt, w') ∧ ring w' 0 (l' ++ [4]) ∧ hook w' y false).
Proof.
  apply (push_pop_round_trip false demo 0 [1; 2; 3] 4); by_evaluation.
Defined.

(** X12: [erase] undoes [insert]: erasing the iterator that [insert(pos, x)]
    returned gives back [pos], the container holds its former sequence and
    [x] is again an unlinked, live element. *)
Theorem insert_erase_round_trip NDEBUG w s la lb x :
  ring w s (la ++ lb) → hook w x false →
  ∃ w', (let! it := insert NDEBUG (Some s) (iter_at s lb) (Some x) in
         erase NDEBUG (Some s) it) w = Some (iter_at s lb, w') ∧
        ring w' s (la ++ lb) ∧
        hook w' x false.
Proof.
  intros Hr Hh.
  destruct (insert_before_ring NDEBUG w s la lb x Hr Hh) as (w1 & Hrun1 & Hr1 & _).
  destruct (unlink_ring NDEBUG w1 s la x lb Hr1) as (w' & Hrun & Hr' & Hf & _).
  exists w'. split; [|split; [done|by eapply unlink_hook]].
  assert (insert NDEBUG (Some s) (iter_at s lb) (Some x) w = Some (Some x, w1))
    as Hins by (unfold insert; by erewrite run_bind by exact Hrun1).
  erewrite run_bind by exact Hins.
  rewrite (erase_unlink NDEBUG w1 s la x lb Hr1).
  by erewrite run_bind by exact Hrun.
Qed.

Lemma insert_erase_round_trip_witness :
  ∃ w', (let! it := insert false (Some 0) (iter_at 0 [2; 3]) (Some 4) in
         erase false (Some 0) it) demo = Some (iter_at 0 [2; 3], w') ∧
        ring w' 0 ([1] ++ [2; 3]) ∧
        hook w' 4 false.
Proof.
  apply (insert_erase_round_trip false demo 0 [1] [2; 3] 4); by_evaluation.
Defined.

(** X13: an element that has been unlinked can be linked again, into the
    same container or into another one: [x.unlink(); push_back(x)] moves [x]
    to the end of its list, and [x.unlink(); other.push_front(x)] moves it to
    the front of the other container. *)
Theorem relink_after_unlink NDEBUG w s la x lb s2 l2 :
  ring w s (la ++ x :: lb) → ring w s2 l2 → s2 ≠ s →
  (∃ w', (unlink NDEBUG (Some x) ;;; push_back NDEBUG (Some s) (Some x)) w
           = Some (tt, w') ∧ ring w' s ((la ++ lb) ++ [x]) ∧ ring w' s2 l2) ∧
  (∃ w', (unlink NDEBUG (Some x) ;;; push_front NDEBUG (Some s2) (Some x)) w
           = Some (tt, w') ∧ ring w' s (la ++ lb) ∧ ring w' s2 (x :: l2)).
Proof.
  intros Hr Hr2 Hne.
  destruct (unlink_ring NDEBUG w s la x lb Hr) as (w1 & Hrun1 & Hr1 & Hf1 & _ & Hs1).
  pose proof (unlink_hook NDEBUG w s la x lb w1 Hr Hrun1 Hf1) as Hh.
  assert (ring w1 s2 l2) as Hr21.
  { apply (others_kept w w1 s (la ++ x :: lb)); [done| | |done|done].
    - intros y Hy. apply Hs1. intros Hin. apply Hy. mem.
    - intros y Hy. rewrite Hf1. rewrite lookup_insert_ne; [done|].
      intros ->. apply Hy. mem. }
  split.
  - assert (ring w1 s ((la ++ lb) ++ [])) as Hr0 by by rewrite app_nil_r.
    destruct (insert_before_ring NDEBUG w1 s (la ++ lb) [] x Hr0 Hh)
      as (w' & Hrun & Hr' & Hf & _ & Hs).
    exists w'. split; [|split; [done|]].
    + erewrite run_bind by exact Hrun1. exact Hrun.
    + rewrite app_nil_r in Hs.
      pose proof (hook_not_in_ring _ _ _ _ Hr21 Hh) as Hx.
      pose proof (ring_disjoint _ _ _ _ _ Hr21 Hr1 Hne) as Hd.
      apply (ring_other w1 w' s2 l2 (x :: s :: la ++ lb)); [done| |done|].
      * intros y Hy [->|Hy']%elem_of_cons; [done|by apply (Hd y)].
      * intros y Hy. rewrite Hf. rewrite lookup_insert_ne; [done|].
        intros ->. apply Hy. mem.
  - destruct (insert_after_ring NDEBUG w1 s2 l2 x Hr21 Hh)
      as (w' & Hrun & Hr' & Hf & _ & Hs).
    exists w'. split; [|split; [|done]].
    + erewrite run_bind by exact Hrun1. exact Hrun.
    + pose proof (hook_not_in_ring _ _ _ _ Hr1 Hh) as Hx.
      assert (s ≠ s2) as Hne' by done.
      pose proof (ring_disjoint _ _ _ _ _ Hr1 Hr21 Hne') as Hd.
      apply (ring_other w1 w' s (la ++ lb) (x :: s2 :: l2)); [done| |done|].
      * intros y Hy [->|Hy']%elem_of_cons; [done|by apply (Hd y)].
      * intros y Hy. rewrite Hf. rewrite lookup_insert_ne; [done|].
        intros ->. apply Hy. mem.
Qed.

Lemma relink_after_unlink_witness :
  (∃ w', (unlink false (Some 2) ;;; push_back false (Some 0) (Some 2)) demo
           = Some (tt, w') ∧ ring w' 0 (([1] ++ [3]) ++ [2]) ∧ ring w' 10 [11; 12]) ∧
  (∃ w', (unlink false (Some 2) ;;; push_front false (Some 10) (Some 2)) demo
           = Some (tt, w') ∧ ring w' 0 ([1] ++ [3]) ∧ ring w' 10 (2 :: [11; 12])).
Proof.
  apply (relink_after_unlink false demo 0 [1] 2 [3] 10 [11; 12]).
  - by_evaluation.
  - by_evaluation.
  - lia.
Defined.

(** X14: the constructors.  A container constructed at an address that is
    no hook and lies in no existing container is empty ([init_sentinel]
    points the sentinel at itself), and an element constructed at an address
    no container uses is an unlinked hook; both leave every existing
    container as it is. *)
Theorem constructors_spec w a :
  is_linked_ w !! a = None →
  (∃ w', construct_list a w = Some (tt, w') ∧
         ring w' a [] ∧
         empty (Some a) w' = Some (true, w') ∧
         (∀ s l, ring w s l → a ∉ s :: l → ring w' s l)) ∧
  (∃ w', construct_node a w = Some (tt, w') ∧
         hook w' a false ∧
         (∀ s l, ring w s l → a ∉ s :: l → ring w' s l)).
Proof.
  intros Ha. split.
  - eexists. split; [|split; [|split]].
    + unfold construct_list, construct_base, init_sentinel.
      erewrite run_bind by done.
      erewrite run_bind
        by (apply run_set_next; simpl; rewrite lookup_insert_eq; eauto).
      apply run_set_prev. simpl. rewrite lookup_insert_eq. eauto.
    + split; [|split; [|split]]; simpl.
      * split; [done|]. split; simpl; by rewrite lookup_insert_eq.
      * apply NoDup_singleton.
      * done.
      * done.
    + unfold empty. erewrite run_bind
        by (apply run_next_node; simpl; by rewrite lookup_insert_eq).
      unfold ret. by rewrite bool_decide_eq_true_2.
    + intros s l Hr Hn. eapply ring_frame; [| |exact Hr].
      * intros y Hy. assert (a ≠ y) by (intros ->; done).
        split; simpl; by rewrite !lookup_insert_ne.
      * done.
  - eexists. split; [|split].
    + unfold construct_node, construct_base. erewrite run_bind by done. reflexivity.
    + split; [|split]; simpl; rewrite lookup_insert_eq; eauto.
    + intros s l Hr Hn. eapply ring_frame; [| |exact Hr].
      * intros y Hy. assert (a ≠ y) by (intros ->; done).
        split; simpl; by rewrite !lookup_insert_ne.
      * intros y Hy. assert (a ≠ y) by (intros ->; done).
        simpl. by rewrite lookup_insert_ne.
Qed.

Lemma constructors_spec_witness :
  (∃ w', construct_list 20 demo = Some (tt, w') ∧
         ring w' 20 [] ∧
         empty (Some 20) w' = Some (true, w') ∧
         (∀ s l, ring demo s l → 20 ∉ s :: l → ring w' s l)) ∧
  (∃ w', construct_node 20 demo = Some (tt, w') ∧
         hook w' 20 false ∧
         (∀ s l, ring demo s l → 20 ∉ s :: l → ring w' s l)).
Proof.
  apply (constructors_spec demo 20). vm_compute. reflexivity.
Defined.

(** X15: destroying an element that is not linked touches no list: the
    destructor skips [unlink()] and the warning in either build, [stderr] is
    unchanged, every container keeps its sequence and only the element's own
    storage is gone. *)
Theorem destroy_unlinked_is_silent NDEBUG w x :
  hook w x false →
  ∃ w', destroy NDEBUG x w = Some (tt, w') ∧
        stderr w' = stderr w ∧
        is_linked_ w' !! x = None ∧
        (∀ y, y ≠ x → same_links w w' y ∧ is_linked_ w' !! y = is_linked_ w !! y) ∧
        (∀ s l, ring w s l → ring w' s l).
Proof.
  intros Hh. eexists. split; [|split; [|split; [|split]]].
  - unfold destroy, destructor, release_node.
    erewrite run_bind; [reflexivity|].
    destruct Hh as [Hf _]. by erewrite run_bind by by apply run_is_linked.
  - done.
  - simpl. by rewrite lookup_delete_eq.
  - intros y Hy. split; [split|]; simpl; by rewrite lookup_delete_ne.
  - intros s l Hr. pose proof (hook_not_in_ring _ _ _ _ Hr Hh) as Hx.
    eapply ring_frame; [| |exact Hr]; intros y Hy.
    + assert (x ≠ y) by (intros ->; done).
      split; simpl; by rewrite lookup_delete_ne.
    + assert (x ≠ y) by (intros ->; done). simpl. by rewrite lookup_delete_ne.
Qed.

Lemma destroy_unlinked_is_silent_witness :
  ∃ w', destroy false 4 demo = Some (tt, w') ∧
        stderr w' = stderr demo ∧
        is_linked_ w' !! 4 = None ∧
        (∀ y, y ≠ 4 → same_links demo w' y ∧ is_linked_ w' !! y = is_linked_ demo !! y) ∧
        (∀ s l, ring demo s l → ring w' s l).
Proof.
  apply (destroy_unlinked_is_silent false demo 4). by_evaluation.
Defined.

Lemma try_pop_front_ring NDEBUG w s x l :
  ring w s (x :: l) →
  ∃ w', try_pop_front NDEBUG (Some s) w = Some (Some x, w') ∧
        ring w' s l ∧
        is_linked_ w' = <[x := false]> (is_linked_ w).
Proof.
  intros Hr.
  destruct (unlink_ring NDEBUG w s [] x l Hr) as (w' & Hrun & Hr' & Hf & _).
  exists w'. split; [|done].
  unfold try_pop_front.
  erewrite run_bind by by eapply run_empty.
  rewrite bool_decide_eq_false_2 by done.
  erewrite run_bind by by eapply front_ring.
  erewrite run_bind by (erewrite pop_front_unlink by exact Hr; exact Hrun).
  done.
Qed.

Lemma drain_ring NDEBUG w s l acc fuel :
  ring w s l → length l < fuel →
  ∃ w', drain NDEBUG fuel (Some s) acc w = Some (acc ++ l, w') ∧
        ring w' s [] ∧
        (∀ x, x ∈ l → is_linked_ w' !! x = Some false) ∧
        (∀ y, y ∉ l → is_linked_ w' !! y = is_linked_ w !! y).
Proof.
  revert w acc fuel. induction l as [|x l IH]; intros w acc fuel Hr Hf.
  - exists w. destruct fuel as [|fuel]; [simpl in Hf; lia|]. simpl.
    unfold try_pop_front. erewrite run_bind.
    2:{ by erewrite run_bind by exact (run_empty w s [] Hr). }
    rewrite app_nil_r. split; [done|]. split; [done|].
    split; [by intros x []%elem_of_nil|done].
  - destruct fuel as [|fuel]; [simpl in Hf; lia|].
    destruct (try_pop_front_ring NDEBUG w s x l Hr) as (w1 & Hrun1 & Hr1 & Hf1).
    destruct (IH w1 (acc ++ [x]) fuel Hr1) as (w' & Hrun & Hr' & Hoff & Hkeep);
      [simpl in Hf; lia|].
    assert (x ∉ l) as Hx.
    { destruct Hr as (_ & Hnd & _).
      apply (NoDup_remove_mid s x [] l) in Hnd as [_ Hm].
      intros Hin. apply Hm. mem. }
    exists w'. split; [|split; [done|split]].
    + simpl. erewrite run_bind by exact Hrun1. simpl.
      rewrite Hrun. by rewrite <- app_assoc.
    + intros y [->|Hy]%elem_of_cons; [|by apply Hoff].
      rewrite Hkeep by done. rewrite Hf1. by rewrite lookup_insert_eq.
    + intros y Hy. rewrite Hkeep by (intros ?; apply Hy; mem).
      rewrite Hf1. rewrite lookup_insert_ne; [done|]. intros ->. apply Hy. mem.
Qed.

(** X16: draining a list with [try_pop_front()] until it returns [nullptr]
    (the loop of the test [DrainViaTryPop]) hands out every element exactly
    once, in list order, and leaves the container empty and the elements
    unlinked. *)
Theorem drain_in_order NDEBUG w s l fuel :
  ring w s l → length l < fuel →
  ∃ w', drain NDEBUG fuel (Some s) [] w = Some (l, w') ∧
        ring w' s [] ∧
        (∀ x, x ∈ l → is_linked_ w' !! x = Some false) ∧
        try_pop_front NDEBUG (Some s) w' = Some (None, w').
Proof.
  intros Hr Hf.
  destruct (drain_ring NDEBUG w s l [] fuel Hr Hf) as (w' & Hrun & Hr' & Hoff & _).
  exists w'. split; [exact Hrun|]. split; [done|]. split; [done|].
  unfold try_pop_front. by erewrite run_bind by exact (run_empty w' s [] Hr').
Qed.

Lemma drain_in_order_witness :
  ∃ w', drain false 4 (Some 0) [] demo = Some ([1; 2; 3], w') ∧
        ring w' 0 [] ∧
        (∀ x, x ∈ [1; 2; 3] → is_linked_ w' !! x = Some false) ∧
        try_pop_front false (Some 0) w' = Some (None, w').
Proof.
  apply (drain_in_order false demo 0 [1; 2; 3] 4).
  - by_evaluation.
  - simpl. lia.
Defined.

Lemma keeps_run_op NDEBUG o : keeps_objects (run_op NDEBUG o).
Proof.
  destruct o; simpl.
  - apply keeps_insert_before.
  - apply keeps_insert_after.
  - apply keeps_bind; [|intros; apply keeps_ret].
    unfold insert. apply keeps_bind; [apply keeps_insert_before|].
    intros; apply keeps_ret.
  - apply keeps_bind; [apply keeps_erase|intros; apply keeps_ret].
  - apply keeps_pop_front.
  - apply keeps_pop_back.
  - apply keeps_splice.
Qed.

(** X17: a call that meets its preconditions never stops at an assertion or
    at a missing object, in either build: from a memory in which every
    container is a ring, every valid [push_back], [push_front], [insert],
    [erase], [pop_front], [pop_back] and [splice] returns, every container is
    a ring again, and no object has been created or destroyed. *)
Theorem valid_call_returns NDEBUG lists w o :
  all_rings lists w → valid_call lists w o →
  ∃ w', run_op NDEBUG o w = Some (tt, w') ∧
        all_rings lists w' ∧
        same_objects w w'.
Proof.
  intros Hall Hv.
  destruct (step_preserves NDEBUG lists w o Hall Hv) as (w' & Hrun & Hall').
  exists w'. split; [done|]. split; [done|]. by eapply keeps_run_op.
Qed.

Lemma valid_call_returns_witness :
  ∃ w', run_op false (OpSplice 0 (Some 2) 10) demo = Some (tt, w') ∧
        all_rings [0; 10] w' ∧
        same_objects demo w'.
Proof.
  apply (valid_call_returns false [0; 10] demo (OpSplice 0 (Some 2) 10)).
  - intros s [->|[->|[]%elem_of_nil]%elem_of_cons]%elem_of_cons.
    + exists [1; 2; 3]. by_evaluation.
    + exists [11; 12]. by_evaluation.
  - split; [repeat constructor|split; [repeat constructor|]].
    exists [1], [2; 3]. split; [by_evaluation|reflexivity].
Defined.

Lemma link_others_kept w w' s l x :
  ring w s l → hook w x false →
  is_linked_ w' = <[x := true]> (is_linked_ w) →
  (∀ y, y ∉ x :: s :: l → same_links w w' y) →
  ∀ s2 l2, ring w s2 l2 → s2 ≠ s → ring w' s2 l2.
Proof.
  intros Hr Hh Hf Hs s2 l2 Hr2 Hne.
  pose proof (ring_disjoint _ _ _ _ _ Hr2 Hr Hne) as Hd.
  pose proof (hook_not_in_ring _ _ _ _ Hr2 Hh) as Hx.
  apply (ring_other w w' s2 l2 (x :: s :: l)); [done| |done|].
  - intros y Hy [->|Hy']%elem_of_cons; [done|by apply (Hd y)].
  - intros y Hy. rewrite Hf. rewrite lookup_insert_ne; [done|].
    intros ->. apply Hy. mem.
Qed.

(** X18: linking writes one flag and touches one container.  [insert(pos, x)]
    sets the flag of [x] and no other, writes nothing to [stderr] and leaves
    every other container with its sequence; [push_front(x)] makes [x] the
    first element, so that [front()] returns it, with the same frame. *)
Theorem linking_frame NDEBUG w s la lb x :
  ring w s (la ++ lb) → hook w x false →
  (∃ w', insert NDEBUG (Some s) (iter_at s lb) (Some x) w = Some (Some x, w') ∧
         ring w' s (la ++ x :: lb) ∧
         is_linked_ w' = <[x := true]> (is_linked_ w) ∧
         stderr w' = stderr w ∧
         (∀ s2 l2, ring w s2 l2 → s2 ≠ s → ring w' s2 l2)) ∧
  (∃ w', push_front NDEBUG (Some s) (Some x) w = Some (tt, w') ∧
         ring w' s (x :: la ++ lb) ∧
         front NDEBUG (Some s) w' = Some (Some x, w') ∧
         is_linked_ w' = <[x := true]> (is_linked_ w) ∧
         stderr w' = stderr w ∧
         (∀ s2 l2, ring w s2 l2 → s2 ≠ s → ring w' s2 l2)).
Proof.
  intros Hr Hh. split.
  - destruct (insert_before_ring NDEBUG w s la lb x Hr Hh)
      as (w' & Hrun & Hr' & Hf & He & Hs).
    exists w'. split; [|split; [done|split; [done|split; [done|]]]].
    + unfold insert. by erewrite run_bind by exact Hrun.
    + by apply (link_others_kept w w' s (la ++ lb) x).
  - destruct (insert_after_ring NDEBUG w s (la ++ lb) x Hr Hh)
      as (w' & Hrun & Hr' & Hf & He & Hs).
    exists w'. split; [exact Hrun|]. split; [done|].
    split; [by apply (front_ring NDEBUG w' s x (la ++ lb))|].
    split; [done|]. split; [done|].
    by apply (link_others_kept w w' s (la ++ lb) x).
Qed.

Lemma linking_frame_witness :
  (∃ w', insert false (Some 0) (iter_at 0 [2; 3]) (Some 4) demo = Some (Some 4, w') ∧
         ring w' 0 ([1] ++ 4 :: [2; 3]) ∧
         is_linked_ w' = <[4 := true]> (is_linked_ demo) ∧
         stderr w' = stderr demo ∧
         (∀ s2 l2, ring demo s2 l2 → s2 ≠ 0 → ring w' s2 l2)) ∧
  (∃ w', push_front false (Some 0) (Some 4) demo = Some (tt, w') ∧
         ring w' 0 (4 :: [1] ++ [2; 3]) ∧
         front false (Some 0) w' = Some (Some 4, w') ∧
         is_linked_ w' = <[4 := true]> (is_linked_ demo) ∧
         stderr w' = stderr demo ∧
         (∀ s2 l2, ring demo s2 l2 → s2 ≠ 0 → ring w' s2 l2)).
Proof.
  apply (linking_frame false demo 0 [1] [2; 3] 4); by_evaluation.
Defined.

(** X19: [pop_front()] unlinks exactly the first element and [pop_back()]
    exactly the last: the rest of the list keeps its order, the popped
    element is an unlinked, still live object, no other flag changes and
    every other container keeps its sequence. *)
Theorem pop_spec NDEBUG w s l :
  ring w s l →
  (∀ x l', l = x :: l' →
     ∃ w', pop_front NDEBUG (Some s) w = Some (tt, w') ∧
           ring w' s l' ∧ hook w' x false ∧
           (∀ y, y ≠ x → is_linked_ w' !! y = is_linked_ w !! y) ∧
           (∀ s2 l2, ring w s2 l2 → s2 ≠ s → ring w' s2 l2)) ∧
  (∀ l' x, l = l' ++ [x] →
     ∃ w', pop_back NDEBUG (Some s) w = Some (tt, w') ∧
           ring w' s l' ∧ hook w' x false ∧
           (∀ y, y ≠ x → is_linked_ w' !! y = is_linked_ w !! y) ∧
           (∀ s2 l2, ring w s2 l2 → s2 ≠ s → ring w' s2 l2)).
Proof.
  intros Hr. split.
  - intros x l' ->.
    destruct (unlink_ring NDEBUG w s [] x l' Hr) as (w' & Hrun & Hr' & Hf & _ & Hs).
    exists w'. split; [by erewrite pop_front_unlink by exact Hr|].
    split; [done|]. split; [by eapply (unlink_hook NDEBUG w s [] x l')|]. split.
    + intros y Hy. rewrite Hf. by rewrite lookup_insert_ne.
    + apply (others_kept w w' s (x :: l')); [done| |].
      * intros y Hy. apply Hs. intros Hin. apply Hy. mem.
      * intros y Hy. rewrite Hf. rewrite lookup_insert_ne; [done|].
        intros ->. apply Hy. mem.
  - intros l' x ->.
    destruct (unlink_ring NDEBUG w s l' x [] Hr) as (w' & Hrun & Hr' & Hf & _ & Hs).
    rewrite app_nil_r in Hr', Hs.
    exists w'. split; [by erewrite pop_back_unlink by exact Hr|].
    split; [done|]. split; [by eapply (unlink_hook NDEBUG w s l' x [])|]. split.
    + intros y Hy. rewrite Hf. by rewrite lookup_insert_ne.
    + apply (others_kept w w' s (l' ++ [x])); [done| |].
      * intros y Hy. apply Hs. intros Hin. apply Hy. mem.
      * intros y Hy. rewrite Hf. rewrite lookup_insert_ne; [done|].
        intros ->. apply Hy. mem.
Qed.

Lemma pop_spec_witness :
  (∃ w', pop_front false (Some 0) demo = Some (tt, w') ∧
         ring w' 0 [2; 3] ∧ hook w' 1 false ∧
         (∀ y, y ≠ 1 → is_linked_ w' !! y = is_linked_ demo !! y) ∧
         (∀ s2 l2, ring demo s2 l2 → s2 ≠ 0 → ring w' s2 l2)) ∧
  (∃ w', pop_back false (Some 0) demo = Some (tt, w') ∧
         ring w' 0 [1; 2] ∧ hook w' 3 false ∧
         (∀ y, y ≠ 3 → is_linked_ w' !! y = is_linked_ demo !! y) ∧
         (∀ s2 l2, ring demo s2 l2 → s2 ≠ 0 → ring w' s2 l2)).
Proof.
  split.
  - apply (pop_spec false demo 0 [1; 2; 3]); [by_evaluation|reflexivity].
  - apply (pop_spec false demo 0 [1; 2; 3]) with (l' := [1; 2]);
      [by_evaluation|reflexivity].
Defined.

(** [extract_front] between two different containers, with what it leaves
    alone. *)
Lemma extract_front_ring w s l sO lO n :
  ring w s l → ring w sO lO → s ≠ sO →
  ∃ w', extract_front (Some s) (Some sO) n w = Some (min n (length l), w') ∧
        ring w' sO (lO ++ take n l) ∧
        ring w' s (drop n l) ∧
        is_linked_ w' = is_linked_ w ∧
        (∀ y, y ∉ (s :: l) ++ (sO :: lO) → same_links w w' y).
Proof.
  intros Hr HrO Hne.
  pose proof (find_split_ring w s l n 0 n Hr eq_refl) as Hfs.
  rewrite drop_0 in Hfs. specialize (Hfs ltac:(lia)).
  set (k := min n (length l)) in *.
  assert (take n l = take k l) as Htake.
  { unfold k. destruct (decide (n ≤ length l)).
    - by replace (min n (length l)) with n by lia.
    - replace (min n (length l)) with (length l) by lia.
      rewrite firstn_all. apply take_ge. lia. }
  assert (drop n l = drop k l) as Hdrop.
  { unfold k. destruct (decide (n ≤ length l)).
    - by replace (min n (length l)) with n by lia.
    - replace (min n (length l)) with (length l) by lia.
      rewrite drop_all. apply drop_ge. lia. }
  assert (length (take n l) = k) as Hlt by (rewrite length_take; lia).
  rewrite Htake, Hdrop.
  destruct (decide (k = 0)) as [Hk|Hk].
  - exists w. rewrite Hk, drop_0. simpl. rewrite app_nil_r.
    split; [|done].
    unfold extract_front, begin_.
    erewrite run_bind by (apply run_next_node; exact (ring_begin _ _ _ Hr)).
    erewrite run_bind by exact Hfs. simpl.
    rewrite bool_decide_eq_false_2 by lia.
    erewrite run_bind by done. by rewrite Hk.
  - destruct (take k l) as [|first r] eqn:Hrun.
    { rewrite Htake in Hlt. simpl in Hlt. lia. }
    assert (l = (first :: r) ++ drop k l) as Hl.
    { rewrite <- Hrun. by rewrite take_drop. }
    assert (ring w s ((first :: r) ++ drop k l)) as Hr' by by rewrite <- Hl.
    assert (ring w sO (lO ++ [])) as HrO' by by rewrite app_nil_r.
    destruct (transfer_ring w s first r (drop k l) sO lO [] Hr' HrO' Hne)
      as (w' & Hrun' & Hrs & Hro & Hf & _ & Hs).
    rewrite app_nil_r in Hro, Hs. rewrite <- Hl in Hs.
    exists w'. split; [|done].
    unfold extract_front, begin_.
    erewrite run_bind by (apply run_next_node; exact (ring_begin _ _ _ Hr)).
    erewrite run_bind by exact Hfs. simpl.
    rewrite bool_decide_eq_true_2 by lia.
    erewrite run_bind; [reflexivity|].
    unfold end_, splice_range.
    erewrite run_bind by done.
    erewrite run_bind by (apply run_next_node; exact (ring_begin _ _ _ Hr)).
    replace (hd s l) with first by (rewrite Hl; done).
    exact Hrun'.
Qed.

(** X20: [splice] and [extract_front] only rewire: neither writes an
    [is_linked_] flag, so the moved elements stay linked throughout, and
    every container other than the two involved keeps its sequence. *)
Theorem moves_write_no_flag w sA la lb sB lB n :
  ring w sA (la ++ lb) → ring w sB lB → sA ≠ sB →
  (∃ w', splice (Some sA) (iter_at sA lb) (Some sB) w = Some (tt, w') ∧
         is_linked_ w' = is_linked_ w ∧
         (∀ x, x ∈ lB → is_linked (Some x) w' = Some (true, w')) ∧
         (∀ s2 l2, ring w s2 l2 → s2 ≠ sA → s2 ≠ sB → ring w' s2 l2)) ∧
  (∃ w', extract_front (Some sB) (Some sA) n w = Some (min n (length lB), w') ∧
         is_linked_ w' = is_linked_ w ∧
         (∀ x, x ∈ lB → is_linked (Some x) w' = Some (true, w')) ∧
         (∀ s2 l2, ring w s2 l2 → s2 ≠ sA → s2 ≠ sB → ring w' s2 l2)).
Proof.
  intros HrA HrB Hne. split.
  - destruct (splice_ring w sA la lb sB lB HrA HrB Hne)
      as (w' & Hrun & _ & _ & _ & Hf & Hs).
    exists w'. split; [done|]. split; [done|]. split.
    + intros x Hx. apply run_is_linked. rewrite Hf. by eapply ring_elem_linked.
    + by apply (two_rings_others_kept w w' sA (la ++ lb) sB lB).
  - assert (sB ≠ sA) as Hne' by done.
    destruct (extract_front_ring w sB lB sA (la ++ lb) n HrB HrA Hne')
      as (w' & Hrun & _ & _ & Hf & Hs).
    exists w'. split; [done|]. split; [done|]. split.
    + intros x Hx. apply run_is_linked. rewrite Hf. by eapply ring_elem_linked.
    + by apply (two_rings_others_kept w w' sA (la ++ lb) sB lB).
Qed.

Lemma moves_write_no_flag_witness :
  (∃ w', splice (Some 0) (iter_at 0 [2; 3]) (Some 10) demo = Some (tt, w') ∧
         is_linked_ w' = is_linked_ demo ∧
         (∀ x, x ∈ [11; 12] → is_linked (Some x) w' = Some (true, w')) ∧
         (∀ s2 l2, ring demo s2 l2 → s2 ≠ 0 → s2 ≠ 10 → ring w' s2 l2)) ∧
  (∃ w', extract_front (Some 10) (Some 0) 1 demo
           = Some (min 1 (length [11; 12]), w') ∧
         is_linked_ w' = is_linked_ demo ∧
         (∀ x, x ∈ [11; 12] → is_linked (Some x) w' = Some (true, w')) ∧
         (∀ s2 l2, ring demo s2 l2 → s2 ≠ 0 → s2 ≠ 10 → ring w' s2 l2)).
Proof.
  apply (moves_write_no_flag demo 0 [1] [2; 3] 10 [11; 12] 1).
  - by_evaluation.
  - by_evaluation.
  - lia.
Defined.

(** X21: [extract_front] into an empty container followed by
    [splice(begin(), out)] gives the list back: the source holds its former
    sequence, [out] is empty again and no flag has changed, whatever the
    count. *)
Theorem extract_then_splice_back w s l sO n :
  ring w s l → ring w sO [] → s ≠ sO →
  ∃ w', (extract_front (Some s) (Some sO) n ;;;
         let! b := begin_ (Some s) in
         splice (Some s) b (Some sO)) w = Some (tt, w') ∧
        ring w' s l ∧
        ring w' sO [] ∧
        is_linked_ w' = is_linked_ w.
Proof.
  intros Hr HrO Hne.
  destruct (extract_front_ring w s l sO [] n Hr HrO Hne)
    as (w1 & Hrun1 & HrO1 & Hr1 & Hf1 & _).
  simpl in HrO1.
  assert (ring w1 s ([] ++ drop n l)) as Hr1' by done.
  destruct (splice_ring w1 s [] (drop n l) sO (take n l) Hr1' HrO1 Hne)
    as (w' & Hrun & Hr' & HrO' & _ & Hf & _).
  simpl in Hr'. rewrite take_drop in Hr'.
  exists w'. split; [|split; [done|split; [done|congruence]]].
  erewrite run_bind by exact Hrun1.
  unfold begin_.
  erewrite run_bind by (apply run_next_node; exact (ring_begin _ _ _ Hr1)).
  exact Hrun.
Qed.

Lemma extract_then_splice_back_witness :
  ∃ w', (extract_front (Some 0) (Some 20) 2 ;;;
         let! b := begin_ (Some 0) in
         splice (Some 0) b (Some 20)) (exec (construct_list 20) demo)
          = Some (tt, w') ∧
        ring w' 0 [1; 2; 3] ∧
        ring w' 20 [] ∧
        is_linked_ w' = is_linked_ (exec (construct_list 20) demo).
Proof.
  apply (extract_then_splice_back (exec (construct_list 20) demo) 0 [1; 2; 3] 20 2).
  - by_evaluation.
  - by_evaluation.
  - lia.
Defined.

Lemma insert_before_any_build NDEBUG w pos x :
  hook w x false →
  insert_before NDEBUG pos (Some x) w
    = (let! p := prev_node pos in link_between (Some x) p pos) w.
Proof.
  intros Hh. unfold insert_before.
  by erewrite run_bind by by apply run_assert_unlinked.
Qed.

Lemma insert_after_any_build NDEBUG w after x :
  hook w x false →
  insert_after NDEBUG after (Some x) w
    = (let! n := next_node after in link_between (Some x) after n) w.
Proof.
  intros Hh. unfold insert_after.
  by erewrite run_bind by by apply run_assert_unlinked.
Qed.

Lemma unlink_any_build NDEBUG w x :
  is_linked_ w !! x = Some true →
  unlink NDEBUG (Some x) w
    = (unlink_base (Some x) ;;; store_is_linked (Some x) false) w.
Proof.
  intros Hx. unfold unlink.
  by erewrite run_bind by (apply run_assert; by apply run_is_linked).
Qed.

Lemma bind_congr {A B} (m1 m2 : M A) (k : A → M B) w :
  m1 w = m2 w → bind m1 k w = bind m2 k w.
Proof. unfold bind. by intros ->. Qed.

(** X22: the assertions never change what a valid call does: from a memory
    in which every container is a ring, a call that meets its preconditions
    returns the same result (for [insert] and [erase], the same iterator) and
    leaves the same memory whether or not the build defines [NDEBUG]. *)
Theorem valid_call_any_build lists w o :
  all_rings lists w → valid_call lists w o →
  match o with
  | OpInsert s pos x =>
      insert true (Some s) pos (Some x) w = insert false (Some s) pos (Some x) w
  | OpErase s pos =>
      erase true (Some s) pos w = erase false (Some s) pos w
  | _ => run_op true o w = run_op false o w
  end.
Proof.
  intros Hall Hv.
  destruct o as [s x|s x|s pos x|s pos|s|s|s pos other]; simpl in Hv; simpl.
  - destruct Hv as [_ Hh]. unfold push_back.
    by rewrite !insert_before_any_build.
  - destruct Hv as [_ Hh]. unfold push_front.
    by rewrite !insert_after_any_build.
  - destruct Hv as (_ & _ & Hh). unfold insert. apply bind_congr.
    by rewrite !insert_before_any_build.
  - destruct Hv as (_ & (la & lb & Hr & ->) & Hne).
    destruct lb as [|x lb]; [done|]. unfold iter_at; simpl.
    rewrite !(erase_unlink _ w s la x lb Hr).
    apply bind_congr.
    rewrite !unlink_any_build; [done|..];
      eapply ring_elem_linked; first [exact Hr|mem].
  - destruct Hv as [Hin He]. destruct (Hall s Hin) as [l Hr].
    rewrite (run_empty w s l Hr) in He.
    destruct l as [|x l]; [done|].
    rewrite !(pop_front_unlink _ w s x l Hr).
    rewrite !unlink_any_build; [done|..];
      eapply ring_elem_linked; first [exact Hr|mem].
  - destruct Hv as [Hin He]. destruct (Hall s Hin) as [l Hr].
    rewrite (run_empty w s l Hr) in He.
    destruct (lst_nil_or_snoc s l) as [->|[l' Hl]]; [done|].
    rewrite Hl in Hr.
    rewrite !(pop_back_unlink _ w s l' _ Hr).
    rewrite !unlink_any_build; [done|..];
      eapply ring_elem_linked; first [exact Hr|mem].
  - done.
Qed.

Lemma valid_call_any_build_witness :
  erase true (Some 0) (Some 2) demo = erase false (Some 0) (Some 2) demo ∧
  insert true (Some 0) (Some 2) (Some 4) demo
    = insert false (Some 0) (Some 2) (Some 4) demo.
Proof.
  assert (all_rings [0; 10] demo) as Hall.
  { intros s [->|[->|[]%elem_of_nil]%elem_of_cons]%elem_of_cons.
    - exists [1; 2; 3]. by_evaluation.
    - exists [11; 12]. by_evaluation. }
  split.
  - apply (valid_call_any_build [0; 10] demo (OpErase 0 (Some 2)) Hall).
    split; [repeat constructor|split; [|done]].
    exists [1], [2; 3]. split; [by_evaluation|reflexivity].
  - apply (valid_call_any_build [0; 10] demo (OpInsert 0 (Some 2) 4) Hall).
    split; [repeat constructor|split; [|by_evaluation]].
    exists [1], [2; 3]. split; [by_evaluation|reflexivity].
Defined.
